(** * configmaster: a debouncing controller for ConfigMap and Secret changes

    A shallow embedding of [main.go].  The program watches two event
    streams, debounces the modifications it sees with one [time.Timer]
    per changed resource, scans the deployments for references to the
    settled resource, debounces the resulting updates with one timer per
    (name, resource version) and finally patches a timestamp annotation
    into each affected deployment.

    Time is an integer number of clock ticks.  A [*time.Timer] is a cell
    of a timer heap and the two global maps hold indices into that heap,
    so that a timer can outlive its map entry exactly as a Go pointer
    can. *)

From stdpp Require Import gmap strings list fin_maps sorting.

Local Open Scope Z_scope.

(** ** The two key types of the program *)

Module ChangeType.
(** [type ChangeType struct { Type string; Name string }] *)
Record t := mk { Type_ : string; Name : string }.
End ChangeType.

Module meta.
(** [meta.TypeMeta] is embedded in [meta.GetOptions]. *)
Record GetOptions := mkGetOptions {
  Kind : string;
  APIVersion : string;
  ResourceVersion : string
}.
End meta.

Module Deployment.
(** [type Deployment struct { Name string; Options meta.GetOptions }] *)
Record t := mk { Name : string; Options : meta.GetOptions }.
End Deployment.

#[global] Instance ChangeType_eq_dec : EqDecision ChangeType.t.
Proof. solve_decision. Defined.

#[global] Instance ChangeType_countable : Countable ChangeType.t.
Proof.
  refine (inj_countable'
            (λ c, (ChangeType.Type_ c, ChangeType.Name c))
            (λ p, ChangeType.mk p.1 p.2) _).
  by intros [].
Defined.

#[global] Instance GetOptions_eq_dec : EqDecision meta.GetOptions.
Proof. solve_decision. Defined.

#[global] Instance GetOptions_countable : Countable meta.GetOptions.
Proof.
  refine (inj_countable'
            (λ o, (meta.Kind o, meta.APIVersion o, meta.ResourceVersion o))
            (λ p, meta.mkGetOptions p.1.1 p.1.2 p.2) _).
  by intros [].
Defined.

#[global] Instance Deployment_eq_dec : EqDecision Deployment.t.
Proof. solve_decision. Defined.

#[global] Instance Deployment_countable : Countable Deployment.t.
Proof.
  refine (inj_countable'
            (λ d, (Deployment.Name d, Deployment.Options d))
            (λ p, Deployment.mk p.1 p.2) _).
  by intros [].
Defined.

(** ** Log output

    Every [log.Printf] of the program, with its arguments.  [%+v] of an
    error is kept as the error itself. *)

Definition error := string.

Inductive LogLine :=
  | SawChangeResetting (type name : string)
  | SawChangeStarting (type name : string)
  | ResettingQueuedUpdate (name : string)
  | QueuingUpdate (name : string)
  | ErrorRetrieving (name : string) (err : error)
  | ErrorMarshaling (name : string) (err : error)
  | ErrorGeneratingPatch (name : string) (err : error)
  | ErrorPatching (name : string) (err : error)
  | Patched (name : string).

(** ** Timers and the debouncing discipline

    [delayedUpdate] and [queueDeployment] have the same body up to the
    map, the key and the log lines; the body is written once, over any
    key type. *)

Section Debounce.
Context {K : Type} `{Countable K}.

(** A [time.Timer] made by [time.AfterFunc]: the key its closure has
    captured, and the instant it is armed for ([None] once it has been
    handed to its goroutine). *)
Record Timer := mkTimer { captured : K; when : option Z }.

(** One global map with the timers it has ever created and the log. *)
Record Timers := mkTimers {
  table : gmap K nat;
  heap : list Timer;
  logs : list LogLine
}.

Definition noTimers : Timers := mkTimers ∅ [] [].

(** The runtime arms a timer for [now + d], and for [now] when [d] is
    not positive. *)
Definition expiry (now d : Z) : Z := now + Z.max 0 d.

(** [time.AfterFunc(d, f)]: a fresh armed timer. *)
Definition AfterFunc (now d : Z) (k : K) (h : list Timer) : nat * list Timer :=
  (length h, h ++ [mkTimer k (Some (expiry now d))]).

(** [timer.Reset(d)]: re-arms the timer, whether or not it is still
    pending. *)
Definition Reset (now d : Z) (timer : nat) (h : list Timer) : list Timer :=
  alter (λ tm, mkTimer (captured tm) (Some (expiry now d))) timer h.

Variables logReset logStart : K → LogLine.

(** [timer, ok := m[k]] *)
Definition lookupTimer (k : K) (s : Timers) : option nat := table s !! k.

(** The two branches of the [if]. *)
Definition resetOrStart (now delay : Z) (k : K) (found : option nat)
    (s : Timers) : Timers :=
  match found with
  | Some timer =>
      mkTimers (table s) (Reset now delay timer (heap s))
               (logs s ++ [logReset k])
  | None =>
      let '(timer, h) := AfterFunc now delay k (heap s) in
      mkTimers (<[k := timer]> (table s)) h (logs s ++ [logStart k])
  end.

(** The whole body, run without interruption. *)
Definition debounce (now delay : Z) (k : K) (s : Timers) : Timers :=
  resetOrStart now delay k (lookupTimer k s) s.

(** The runtime takes an expiring timer out of the pending set... *)
Definition expire (timer : nat) (h : list Timer) : list Timer :=
  alter (λ tm, mkTimer (captured tm) None) timer h.

(** ...and its closure starts with [delete(m, k)]. *)
Definition deleteEntry (k : K) (s : Timers) : Timers :=
  mkTimers (delete k (table s)) (heap s) (logs s).

(** Expiry and the [delete] of the closure in one step; the result
    names the key the next stage is invoked with. *)
Definition fire (timer : nat) (s : Timers) : option (K * Timers) :=
  match heap s !! timer with
  | Some tm =>
      match when tm with
      | Some _ =>
          Some (captured tm,
                deleteEntry (captured tm)
                  (mkTimers (table s) (expire timer (heap s)) (logs s)))
      | None => None
      end
  | None => None
  end.

(** The pending timer that expires first (the oldest one among equals),
    with its instant. *)
Fixpoint earliest (h : list Timer) : option (Z * nat) :=
  match h with
  | [] => None
  | tm :: r =>
      let rest := (λ p : Z * nat, (p.1, S p.2)) <$> earliest r in
      match when tm, rest with
      | Some w, Some (wr, ir) =>
          if bool_decide (w ≤ wr) then Some (w, 0%nat) else Some (wr, ir)
      | Some w, None => Some (w, 0%nat)
      | None, _ => rest
      end
  end.

(** Let the clock reach [t]: the timers due by then fire one after the
    other, first due first; every invocation of the next stage is
    recorded with its instant and its key. *)
Fixpoint advance (fuel : nat) (t : Z) (s : Timers) (out : list (Z * K))
    : Timers * list (Z * K) :=
  match fuel with
  | O => (s, out)
  | S fuel' =>
      match earliest (heap s) with
      | Some (w, timer) =>
          if bool_decide (w ≤ t) then
            match fire timer s with
            | Some (k, s') => advance fuel' t s' (out ++ [(w, k)])
            | None => (s, out)
            end
          else (s, out)
      | None => (s, out)
      end
  end.

Definition runTimers (t : Z) (s : Timers) (out : list (Z * K))
    : Timers * list (Z * K) :=
  advance (length (heap s)) t s out.

(** A stream of notifications, each with the instant it arrives at.
    A timer that is due at the very instant of a notification is taken
    before it; the program has no order for the two, so what is stated
    of a run is stated of streams without such a tie. *)
Fixpoint run (delay : Z) (evs : list (Z * K)) (s : Timers)
    (out : list (Z * K)) : Timers * list (Z * K) :=
  match evs with
  | [] => (s, out)
  | (t, k) :: evs' =>
      let '(s1, out1) := runTimers t s out in
      run delay evs' (debounce t delay k s1) out1
  end.

(** The invocations of the next stage up to the instant [T]. *)
Definition simulate (delay : Z) (evs : list (Z * K)) (T : Z) : list (Z * K) :=
  let '(s, out) := run delay evs noTimers [] in
  (runTimers T s out).2.

(** The invocations for one key. *)
Definition callsFor (k : K) (out : list (Z * K)) : list (Z * K) :=
  filter (λ e, e.2 = k) out.

(** The instant the timer stored under [k] is armed for. *)
Definition deadline (s : Timers) (k : K) : option Z :=
  timer ← table s !! k; tm ← heap s !! timer; when tm.

(** A timer is live while it is armed. *)
Definition live (s : Timers) (timer : nat) (k : K) : Prop :=
  ∃ w, heap s !! timer = Some (mkTimer k (Some w)).

Definition atMostOneLiveTimerPerKey (s : Timers) : Prop :=
  ∀ k i j, live s i k → live s j k → i = j.
End Debounce.

Arguments Timer K : clear implicits.
Arguments Timers K {_ _}.


(** ** The two debouncers of the program *)

(** [delay], in clock ticks, is a parameter of every function that reads
    the global. *)

(** The two log lines of [delayedUpdate]. *)
Definition sawChangeResetting (change : ChangeType.t) : LogLine :=
  SawChangeResetting (ChangeType.Type_ change) (ChangeType.Name change).

Definition sawChangeStarting (change : ChangeType.t) : LogLine :=
  SawChangeStarting (ChangeType.Type_ change) (ChangeType.Name change).

(** [func delayedUpdate(change ChangeType)] over [changeTimers]. *)
Definition delayedUpdate (now delay : Z) (change : ChangeType.t)
    (changeTimers : Timers ChangeType.t) : Timers ChangeType.t :=
  debounce sawChangeResetting sawChangeStarting now delay change changeTimers.

(** The settled changes that a stream of notifications leads to: the
    invocations of [findAndQueueDeployments] by the expiring timers of
    [changeTimers], up to the instant [T]. *)
Definition settledChanges (delay : Z) (evs : list (Z * ChangeType.t)) (T : Z)
    : list (Z * ChangeType.t) :=
  simulate sawChangeResetting sawChangeStarting delay evs T.

(** ** The Kubernetes objects the program reads *)

Module ObjectMeta.
Record t := mk {
  Name : string;
  Namespace : string;
  ResourceVersion : string;
  Labels : option (gmap string string);
  Annotations : option (gmap string string)
}.
End ObjectMeta.

Module ConfigMapEnvSource.
Record t := mk { Name : string }.
End ConfigMapEnvSource.

Module SecretEnvSource.
Record t := mk { Name : string }.
End SecretEnvSource.

Module EnvFromSource.
Record t := mk {
  Prefix : string;
  ConfigMapRef : option ConfigMapEnvSource.t;
  SecretRef : option SecretEnvSource.t
}.
End EnvFromSource.

Module ConfigMapKeySelector.
Record t := mk { Name : string; Key : string }.
End ConfigMapKeySelector.

Module SecretKeySelector.
Record t := mk { Name : string; Key : string }.
End SecretKeySelector.

Module EnvVarSource.
Record t := mk {
  ConfigMapKeyRef : option ConfigMapKeySelector.t;
  SecretKeyRef : option SecretKeySelector.t
}.
End EnvVarSource.

Module EnvVar.
Record t := mk {
  Name : string;
  Value : string;
  ValueFrom : option EnvVarSource.t
}.
End EnvVar.

Module Container.
Record t := mk {
  Name : string;
  Image : string;
  EnvFrom : list EnvFromSource.t;
  Env : list EnvVar.t
}.
End Container.

Module PodSpec.
Record t := mk {
  InitContainers : list Container.t;
  Containers : list Container.t
}.
End PodSpec.

Module PodTemplateSpec.
Record t := mk { ObjectMeta : ObjectMeta.t; Spec : PodSpec.t }.
End PodTemplateSpec.

Module DeploymentSpec.
Record t := mk { Replicas : option Z; Template : PodTemplateSpec.t }.
End DeploymentSpec.

Module apps.
(** [apps.Deployment] *)
Record Deployment := mkDeployment {
  ObjectMeta : ObjectMeta.t;
  Spec : DeploymentSpec.t
}.
End apps.

Module ConfigMap.
Record t := mk { ObjectMeta : ObjectMeta.t; Data : gmap string string }.
End ConfigMap.

Module Secret.
Record t := mk { ObjectMeta : ObjectMeta.t; Data : gmap string string }.
End Secret.

(** ** Results of calls, and the two ways a function can end *)

Inductive Result (A : Type) :=
  | Ok (a : A)
  | Err (err : error).
Arguments Ok {A} a.
Arguments Err {A} err.

Inductive PanicValue :=
  | PanicError (err : error)
  | NilPointerDereference.

Inductive Outcome (A : Type) :=
  | Returned (a : A)
  | Panicked (v : PanicValue).
Arguments Returned {A} a.
Arguments Panicked {A} v.

(** ** The update debouncer *)

(** [func queueDeployment(deployment apps.Deployment)] over
    [updateTimers]. *)
Definition queueDeployment (now delay : Z) (deployment : apps.Deployment)
    (updateTimers : Timers Deployment.t) : Timers Deployment.t :=
  let dep :=
    Deployment.mk
      (ObjectMeta.Name (apps.ObjectMeta deployment))
      (meta.mkGetOptions "" ""
         (ObjectMeta.ResourceVersion (apps.ObjectMeta deployment))) in
  debounce
    (λ _, ResettingQueuedUpdate (ObjectMeta.Name (apps.ObjectMeta deployment)))
    (λ _, QueuingUpdate (ObjectMeta.Name (apps.ObjectMeta deployment)))
    now delay dep updateTimers.

(** The key [queueDeployment] builds, and its log lines as functions of
    the key. *)
Definition depKey (deployment : apps.Deployment) : Deployment.t :=
  Deployment.mk
    (ObjectMeta.Name (apps.ObjectMeta deployment))
    (meta.mkGetOptions "" ""
       (ObjectMeta.ResourceVersion (apps.ObjectMeta deployment))).

Definition resettingQueuedUpdate (dep : Deployment.t) : LogLine :=
  ResettingQueuedUpdate (Deployment.Name dep).

Definition queuingUpdate (dep : Deployment.t) : LogLine :=
  QueuingUpdate (Deployment.Name dep).

(** ** The dependency scan *)

(** What the scan looks at, in the order it looks at it. *)
Inductive Source :=
  | FromEnvFrom (env : EnvFromSource.t)
  | FromEnv (env : EnvVar.t).

(** The four conditions of [findAndQueueDeployments]. *)
Definition configMapRefMatches (change : ChangeType.t) (env : EnvFromSource.t) : bool :=
  bool_decide (ChangeType.Type_ change = "ConfigMap") &&
  match EnvFromSource.ConfigMapRef env with
  | Some ref => bool_decide (ConfigMapEnvSource.Name ref = ChangeType.Name change)
  | None => false
  end.

Definition secretRefMatches (change : ChangeType.t) (env : EnvFromSource.t) : bool :=
  bool_decide (ChangeType.Type_ change = "Secret") &&
  match EnvFromSource.SecretRef env with
  | Some ref => bool_decide (SecretEnvSource.Name ref = ChangeType.Name change)
  | None => false
  end.

Definition configMapKeyRefMatches (change : ChangeType.t) (env : EnvVar.t) : bool :=
  bool_decide (ChangeType.Type_ change = "ConfigMap") &&
  match EnvVar.ValueFrom env with
  | Some from =>
      match EnvVarSource.ConfigMapKeyRef from with
      | Some ref => bool_decide (ConfigMapKeySelector.Name ref = ChangeType.Name change)
      | None => false
      end
  | None => false
  end.

Definition secretKeyRefMatches (change : ChangeType.t) (env : EnvVar.t) : bool :=
  bool_decide (ChangeType.Type_ change = "Secret") &&
  match EnvVar.ValueFrom env with
  | Some from =>
      match EnvVarSource.SecretKeyRef from with
      | Some ref => bool_decide (SecretKeySelector.Name ref = ChangeType.Name change)
      | None => false
      end
  | None => false
  end.

(** [for _, env := range container.EnvFrom]: the sources visited, and
    whether the loop left through [continue deploymentLoop]. *)
Fixpoint scanEnvFrom (change : ChangeType.t) (envs : list EnvFromSource.t)
    : list Source * bool :=
  match envs with
  | [] => ([], false)
  | env :: envs' =>
      if configMapRefMatches change env then ([FromEnvFrom env], true)
      else if secretRefMatches change env then ([FromEnvFrom env], true)
      else
        let '(seen, found) := scanEnvFrom change envs' in
        (FromEnvFrom env :: seen, found)
  end.

(** [for _, env := range container.Env] *)
Fixpoint scanEnv (change : ChangeType.t) (envs : list EnvVar.t)
    : list Source * bool :=
  match envs with
  | [] => ([], false)
  | env :: envs' =>
      if configMapKeyRefMatches change env then ([FromEnv env], true)
      else if secretKeyRefMatches change env then ([FromEnv env], true)
      else
        let '(seen, found) := scanEnv change envs' in
        (FromEnv env :: seen, found)
  end.

(** [for _, container := range deployment.Spec.Template.Spec.Containers] *)
Fixpoint scanContainers (change : ChangeType.t) (containers : list Container.t)
    : list Source * bool :=
  match containers with
  | [] => ([], false)
  | container :: containers' =>
      let '(seen1, found1) := scanEnvFrom change (Container.EnvFrom container) in
      if found1 then (seen1, true)
      else
        let '(seen2, found2) := scanEnv change (Container.Env container) in
        if found2 then (seen1 ++ seen2, true)
        else
          let '(seen3, found3) := scanContainers change containers' in
          (seen1 ++ seen2 ++ seen3, found3)
  end.

(** One round of [deploymentLoop]. *)
Definition scanDeployment (change : ChangeType.t) (deployment : apps.Deployment)
    : list Source * bool :=
  scanContainers change
    (PodSpec.Containers
       (PodTemplateSpec.Spec
          (DeploymentSpec.Template (apps.Spec deployment)))).

(** [deploymentLoop: for _, deployment := range deployments.Items] *)
Fixpoint deploymentLoop (now delay : Z) (change : ChangeType.t)
    (items : list apps.Deployment) (updateTimers : Timers Deployment.t)
    : Timers Deployment.t :=
  match items with
  | [] => updateTimers
  | deployment :: items' =>
      if (scanDeployment change deployment).2
      then deploymentLoop now delay change items'
             (queueDeployment now delay deployment updateTimers)
      else deploymentLoop now delay change items' updateTimers
  end.

(** [func findAndQueueDeployments(change ChangeType)]; [deployments] is
    what the call of [List] answers. *)
Definition findAndQueueDeployments (now delay : Z) (change : ChangeType.t)
    (deployments : Result (list apps.Deployment))
    (updateTimers : Timers Deployment.t) : Outcome (Timers Deployment.t) :=
  match deployments with
  | Err err => Panicked (PanicError err)
  | Ok items => Returned (deploymentLoop now delay change items updateTimers)
  end.

(** The two timer maps of the process. *)
Record Maps := mkMaps {
  changeTimers : Timers ChangeType.t;
  updateTimers : Timers Deployment.t
}.

(** The closure [delayedUpdate] hands to [time.AfterFunc]:
    [delete(changeTimers, change); findAndQueueDeployments(change)]. *)
Definition changeTimerFunc (now delay : Z) (change : ChangeType.t)
    (deployments : Result (list apps.Deployment)) (m : Maps) : Outcome Maps :=
  let changeTimers := deleteEntry change (changeTimers m) in
  match findAndQueueDeployments now delay change deployments (updateTimers m) with
  | Returned updateTimers => Returned (mkMaps changeTimers updateTimers)
  | Panicked v => Panicked v
  end.

(** What the process goes on to do, when it is still there. *)
Definition andThen {A B : Type} (o : Outcome A) (next : A → Outcome B) : Outcome B :=
  match o with
  | Returned a => next a
  | Panicked v => Panicked v
  end.

(** All the sources of the main containers, container by container, the
    whole-bundle imports of a container before its single-key
    references. *)
Definition sourcesOf (containers : list Container.t) : list Source :=
  flat_map
    (λ c, (FromEnvFrom <$> Container.EnvFrom c) ++ (FromEnv <$> Container.Env c))
    containers.

(** The bundles a source points at, as (kind, name). *)
Definition references (src : Source) : list (string * string) :=
  match src with
  | FromEnvFrom env =>
      match EnvFromSource.ConfigMapRef env with
      | Some ref => [("ConfigMap", ConfigMapEnvSource.Name ref)]
      | None => []
      end ++
      match EnvFromSource.SecretRef env with
      | Some ref => [("Secret", SecretEnvSource.Name ref)]
      | None => []
      end
  | FromEnv env =>
      match EnvVar.ValueFrom env with
      | Some from =>
          match EnvVarSource.ConfigMapKeyRef from with
          | Some ref => [("ConfigMap", ConfigMapKeySelector.Name ref)]
          | None => []
          end ++
          match EnvVarSource.SecretKeyRef from with
          | Some ref => [("Secret", SecretKeySelector.Name ref)]
          | None => []
          end
      | None => []
      end
  end.

(** A source refers to the change when one of its references has the
    kind and the name of the change. *)
Definition refersTo (change : ChangeType.t) (src : Source) : Prop :=
  (ChangeType.Type_ change, ChangeType.Name change) ∈ references src.

#[global] Instance refersTo_dec change src : Decision (refersTo change src).
Proof. unfold refersTo. apply _. Defined.

(** ** The patch applier *)

(** What [patchDeployment] does to the world, in order.  [Bytes] is the
    type serialized objects and patches are given in. *)
Inductive Action (Bytes : Type) :=
  | CallGet (name : string) (options : meta.GetOptions)
  | CallMarshal (dep : apps.Deployment)
  | CallCreateTwoWayMergePatch (current updated : Bytes)
  | CallPatch (name : string) (patch : Bytes)
  | Log (line : LogLine).
Arguments CallGet {Bytes} name options.
Arguments CallMarshal {Bytes} dep.
Arguments CallCreateTwoWayMergePatch {Bytes} current updated.
Arguments CallPatch {Bytes} name patch.
Arguments Log {Bytes} line.

Definition lastUpdate : string := "configmaster/last.update".

Definition topAnnotations (dep : apps.Deployment) : option (gmap string string) :=
  ObjectMeta.Annotations (apps.ObjectMeta dep).

Definition templateAnnotations (dep : apps.Deployment) : option (gmap string string) :=
  ObjectMeta.Annotations
    (PodTemplateSpec.ObjectMeta (DeploymentSpec.Template (apps.Spec dep))).

(** [dep.Annotations = a] *)
Definition setAnnotations (a : option (gmap string string))
    (dep : apps.Deployment) : apps.Deployment :=
  let m := apps.ObjectMeta dep in
  apps.mkDeployment
    (ObjectMeta.mk (ObjectMeta.Name m) (ObjectMeta.Namespace m)
       (ObjectMeta.ResourceVersion m) (ObjectMeta.Labels m) a)
    (apps.Spec dep).

(** [dep.Spec.Template.Annotations = a] *)
Definition setTemplateAnnotations (a : option (gmap string string))
    (dep : apps.Deployment) : apps.Deployment :=
  let spec := apps.Spec dep in
  let tpl := DeploymentSpec.Template spec in
  let m := PodTemplateSpec.ObjectMeta tpl in
  apps.mkDeployment (apps.ObjectMeta dep)
    (DeploymentSpec.mk (DeploymentSpec.Replicas spec)
       (PodTemplateSpec.mk
          (ObjectMeta.mk (ObjectMeta.Name m) (ObjectMeta.Namespace m)
             (ObjectMeta.ResourceVersion m) (ObjectMeta.Labels m) a)
          (PodTemplateSpec.Spec tpl))).

(** [m[lastUpdate] = now] through the map a field holds; the field is
    not nil when the program gets there. *)
Definition store (now : string) (a : option (gmap string string))
    : option (gmap string string) :=
  (λ m, <[lastUpdate := now]> m) <$> a.

(** The statements of [patchDeployment] between the two [json.Marshal],
    one after the other: the two nil checks, then the two stores. *)
Definition touch (now : string) (dep : apps.Deployment) : apps.Deployment :=
  let dep :=
    match topAnnotations dep with
    | None => setAnnotations (Some ∅) dep
    | Some _ => dep
    end in
  let dep :=
    match templateAnnotations dep with
    | None => setTemplateAnnotations (Some ∅) dep
    | Some _ => dep
    end in
  let dep := setAnnotations (store now (topAnnotations dep)) dep in
  setTemplateAnnotations (store now (templateAnnotations dep)) dep.

Section PatchApplier.
Context {Bytes : Type}.
(** The cluster and the libraries, as they answer. *)
Variable Get : string → meta.GetOptions → Result apps.Deployment.
Variable Patch : string → Bytes → Result apps.Deployment.
Variable jsonMarshal : apps.Deployment → Result Bytes.
Variable CreateTwoWayMergePatch : Bytes → Bytes → Result Bytes.
(** [time.Now().Format(time.RFC3339)] at a given instant. *)
Variable formatRFC3339 : Z → string.

(** [func patchDeployment(deployment Deployment)] *)
Definition patchDeployment (clock : Z) (deployment : Deployment.t)
    : list (Action Bytes) :=
  CallGet (Deployment.Name deployment) (Deployment.Options deployment) ::
  match Get (Deployment.Name deployment) (Deployment.Options deployment) with
  | Err err => [Log (ErrorRetrieving (Deployment.Name deployment) err)]
  | Ok dep =>
    let name := ObjectMeta.Name (apps.ObjectMeta dep) in
    CallMarshal dep ::
    match jsonMarshal dep with
    | Err err => [Log (ErrorMarshaling name err)]
    | Ok current =>
      let now := formatRFC3339 clock in
      let dep := touch now dep in
      let name := ObjectMeta.Name (apps.ObjectMeta dep) in
      CallMarshal dep ::
      match jsonMarshal dep with
      | Err err => [Log (ErrorMarshaling name err)]
      | Ok updated =>
        CallCreateTwoWayMergePatch current updated ::
        match CreateTwoWayMergePatch current updated with
        | Err err => [Log (ErrorGeneratingPatch name err)]
        | Ok patch =>
          CallPatch name patch ::
          match Patch name patch with
          | Err err => [Log (ErrorPatching name err)]
          | Ok _ => [Log (Patched name)]
          end
        end
      end
    end
  end.
End PatchApplier.

(** Is the action a submission of a patch? *)
Definition isPatchCall {Bytes : Type} (a : Action Bytes) : bool :=
  match a with CallPatch _ _ => true | _ => false end.

(** Is the action the log line of a failure? *)
Definition isErrorLog {Bytes : Type} (a : Action Bytes) : bool :=
  match a with
  | Log (ErrorRetrieving _ _) | Log (ErrorMarshaling _ _)
  | Log (ErrorGeneratingPatch _ _) | Log (ErrorPatching _ _) => true
  | _ => false
  end.

(** ** The documents of the patch applier

    A serialized object is taken as the document it denotes: the value,
    if any, at every path of field names.  A list is a value of its own,
    as a merge patch replaces a list as a whole. *)

#[global] Instance ConfigMapEnvSource_eq_dec : EqDecision ConfigMapEnvSource.t.
Proof. solve_decision. Defined.
#[global] Instance SecretEnvSource_eq_dec : EqDecision SecretEnvSource.t.
Proof. solve_decision. Defined.
#[global] Instance EnvFromSource_eq_dec : EqDecision EnvFromSource.t.
Proof. solve_decision. Defined.
#[global] Instance ConfigMapKeySelector_eq_dec : EqDecision ConfigMapKeySelector.t.
Proof. solve_decision. Defined.
#[global] Instance SecretKeySelector_eq_dec : EqDecision SecretKeySelector.t.
Proof. solve_decision. Defined.
#[global] Instance EnvVarSource_eq_dec : EqDecision EnvVarSource.t.
Proof. solve_decision. Defined.
#[global] Instance EnvVar_eq_dec : EqDecision EnvVar.t.
Proof. solve_decision. Defined.
#[global] Instance Container_eq_dec : EqDecision Container.t.
Proof. solve_decision. Defined.

Inductive Value :=
  | VNull
  | VString (s : string)
  | VNumber (n : Z)
  | VContainers (containers : list Container.t).

#[global] Instance Value_eq_dec : EqDecision Value.
Proof. solve_decision. Defined.

Definition Document : Type := list string → option Value.

(** A merge patch is a document too: at a path it says nothing, or gives
    the value to set, or null when the path is to go. *)
Definition MergePatch : Type := Document.

(** A string field tagged [omitempty]. *)
Definition omitEmpty (s : string) : option Value :=
  if decide (s = "") then None else Some (VString s).

(** [json.Marshal] of an [ObjectMeta]: its name, namespace and resource
    version, its labels and its annotations, each key under the map it
    is in; a nil or empty map leaves nothing. *)
Definition marshalMeta (m : ObjectMeta.t) : Document := λ path,
  match path with
  | [field] =>
      if decide (field = "name") then omitEmpty (ObjectMeta.Name m)
      else if decide (field = "namespace") then omitEmpty (ObjectMeta.Namespace m)
      else if decide (field = "resourceVersion")
           then omitEmpty (ObjectMeta.ResourceVersion m)
      else None
  | [field; key] =>
      if decide (field = "labels")
      then VString <$> (default ∅ (ObjectMeta.Labels m) !! key)
      else if decide (field = "annotations")
           then VString <$> (default ∅ (ObjectMeta.Annotations m) !! key)
      else None
  | _ => None
  end.

Definition marshalPodSpec (spec : PodSpec.t) : Document := λ path,
  match path with
  | [field] =>
      if decide (field = "initContainers") then
        match PodSpec.InitContainers spec with
        | [] => None
        | inits => Some (VContainers inits)
        end
      else if decide (field = "containers")
           then Some (VContainers (PodSpec.Containers spec))
      else None
  | _ => None
  end.

Definition marshalTemplate (tpl : PodTemplateSpec.t) : Document := λ path,
  match path with
  | field :: rest =>
      if decide (field = "metadata")
      then marshalMeta (PodTemplateSpec.ObjectMeta tpl) rest
      else if decide (field = "spec")
           then marshalPodSpec (PodTemplateSpec.Spec tpl) rest
      else None
  | [] => None
  end.

Definition marshalSpec (spec : DeploymentSpec.t) : Document := λ path,
  match path with
  | field :: rest =>
      if decide (field = "replicas") then
        match rest with
        | [] => VNumber <$> DeploymentSpec.Replicas spec
        | _ => None
        end
      else if decide (field = "template")
           then marshalTemplate (DeploymentSpec.Template spec) rest
      else None
  | [] => None
  end.

(** [json.Marshal(dep)], for the fields of the objects above. *)
Definition marshal (dep : apps.Deployment) : Document := λ path,
  match path with
  | field :: rest =>
      if decide (field = "metadata") then marshalMeta (apps.ObjectMeta dep) rest
      else if decide (field = "spec") then marshalSpec (apps.Spec dep) rest
      else None
  | [] => None
  end.

(** A two-way merge patch, by what it does: at every path, the value of
    [modified] where it is not already the value of [original], null
    where [original] has a value and [modified] has none, and nothing
    where the two agree. *)
Definition twoWayMergePatch (original modified : Document) : MergePatch := λ path,
  match modified path with
  | Some v => if decide (original path = Some v) then None else Some v
  | None =>
      match original path with
      | Some _ => Some VNull
      | None => None
      end
  end.

(** The document a merge patch makes of a document. *)
Definition applyMergePatch (patch : MergePatch) (doc : Document) : Document := λ path,
  match patch path with
  | Some VNull => None
  | Some v => Some v
  | None => doc path
  end.

(** The two places of the timestamp. *)
Definition topPath : list string := ["metadata"; "annotations"; lastUpdate].
Definition templatePath : list string :=
  ["spec"; "template"; "metadata"; "annotations"; lastUpdate].

(** ** The watch loops *)

Module watch.
(** The dynamic type of [event.Object]. *)
Inductive Object :=
  | ConfigMapObject (configmap : ConfigMap.t)
  | SecretObject (secret : Secret.t)
  | StatusObject (message : string)
  | NilObject.

Record Event := mkEvent { Type_ : string; Object_ : Object }.

(** [watch.Filter(w, f)]: the events [f] keeps, as [f] returns them,
    each at the instant it arrives at. *)
Definition Filter (f : Event → Event * bool) (evs : list (Z * Event))
    : list (Z * Event) :=
  omap (λ te, let '(e', keep) := f te.2 in
              if keep then Some (te.1, e') else None) evs.
End watch.

Definition filterFunc (e : watch.Event) : watch.Event * bool :=
  (e, bool_decide (watch.Type_ e = "MODIFIED")).

(** [configmap, _ := event.Object.( *core.ConfigMap )]: the asserted
    pointer, nil when the assertion fails; the [ok] flag is dropped. *)
Definition assertConfigMap (o : watch.Object) : option ConfigMap.t :=
  match o with
  | watch.ConfigMapObject configmap => Some configmap
  | _ => None
  end.

(** [secret, _ := event.Object.( *core.Secret )] *)
Definition assertSecret (o : watch.Object) : option Secret.t :=
  match o with
  | watch.SecretObject secret => Some secret
  | _ => None
  end.

(** The body of the loop over the ConfigMap stream. *)
Definition configMapEvent (now delay : Z) (event : watch.Event)
    (changeTimers : Timers ChangeType.t) : Outcome (Timers ChangeType.t) :=
  match assertConfigMap (watch.Object_ event) with
  | Some configmap =>
      Returned
        (delayedUpdate now delay
           (ChangeType.mk "ConfigMap"
              (ObjectMeta.Name (ConfigMap.ObjectMeta configmap)))
           changeTimers)
  | None => Panicked NilPointerDereference
  end.

(** The body of the loop over the Secret stream. *)
Definition secretEvent (now delay : Z) (event : watch.Event)
    (changeTimers : Timers ChangeType.t) : Outcome (Timers ChangeType.t) :=
  match assertSecret (watch.Object_ event) with
  | Some secret =>
      Returned
        (delayedUpdate now delay
           (ChangeType.mk "Secret"
              (ObjectMeta.Name (Secret.ObjectMeta secret)))
           changeTimers)
  | None => Panicked NilPointerDereference
  end.

(** [for event := range ...]: the body on one event after the other; a
    panic ends the loop and the process. *)
Fixpoint rangeOver
    (body : Z → Z → watch.Event → Timers ChangeType.t → Outcome (Timers ChangeType.t))
    (delay : Z) (evs : list (Z * watch.Event)) (changeTimers : Timers ChangeType.t)
    : Outcome (Timers ChangeType.t) :=
  match evs with
  | [] => Returned changeTimers
  | (now, event) :: evs' =>
      match body now delay event changeTimers with
      | Returned changeTimers' => rangeOver body delay evs' changeTimers'
      | Panicked v => Panicked v
      end
  end.

(** The two goroutines of [main], each over the events of its stream. *)
Definition watchConfigMaps (delay : Z) (configmaps : list (Z * watch.Event))
    (changeTimers : Timers ChangeType.t) : Outcome (Timers ChangeType.t) :=
  rangeOver configMapEvent delay (watch.Filter filterFunc configmaps) changeTimers.

Definition watchSecrets (delay : Z) (secrets : list (Z * watch.Event))
    (changeTimers : Timers ChangeType.t) : Outcome (Timers ChangeType.t) :=
  rangeOver secretEvent delay (watch.Filter filterFunc secrets) changeTimers.

(** ** Goroutines

    Nothing in the program serialises the accesses to a timer map: the
    body of a debouncer and the closure of a timer are run by goroutines
    whose steps interleave. *)

Section Interleaving.
Context {K : Type} `{Countable K}.
Variables logReset logStart : K → LogLine.

(** Where a goroutine stands. *)
Inductive Goroutine :=
  | Entering (k : K)                       (* before [timer, ok := m[k]] *)
  | Looked (k : K) (found : option nat)    (* before the branch it chose *)
  | Closure (k : K)                        (* before [delete(m, k)] *)
  | Finished.

Record Process := mkProcess {
  clock : Z;
  timers : Timers K;
  goroutines : list Goroutine;
  invoked : list (Z * K)
}.

Definition startProcess : Process := mkProcess 0 noTimers [] [].

(** What happens next. *)
Inductive Choice :=
  | Tick (t : Z)          (* the clock reaches [t] *)
  | Call (k : K)          (* a goroutine enters the debouncer with [k] *)
  | Expire (timer : nat)  (* the runtime starts the closure of a due timer *)
  | Step (g : nat).       (* goroutine [g] runs one statement *)

Definition step (delay : Z) (c : Choice) (p : Process) : Process :=
  match c with
  | Tick t =>
      if bool_decide (clock p ≤ t)
      then mkProcess t (timers p) (goroutines p) (invoked p)
      else p
  | Call k =>
      mkProcess (clock p) (timers p) (goroutines p ++ [Entering k]) (invoked p)
  | Expire timer =>
      match heap (timers p) !! timer with
      | Some (mkTimer k (Some w)) =>
          if bool_decide (w ≤ clock p) then
            mkProcess (clock p)
              (mkTimers (table (timers p)) (expire timer (heap (timers p)))
                        (logs (timers p)))
              (goroutines p ++ [Closure k]) (invoked p)
          else p
      | _ => p
      end
  | Step g =>
      match goroutines p !! g with
      | Some (Entering k) =>
          mkProcess (clock p) (timers p)
            (<[g := Looked k (lookupTimer k (timers p))]> (goroutines p))
            (invoked p)
      | Some (Looked k found) =>
          mkProcess (clock p)
            (resetOrStart logReset logStart (clock p) delay k found (timers p))
            (<[g := Finished]> (goroutines p)) (invoked p)
      | Some (Closure k) =>
          mkProcess (clock p) (deleteEntry k (timers p))
            (<[g := Finished]> (goroutines p))
            (invoked p ++ [(clock p, k)])
      | _ => p
      end
  end.

(** A schedule, run from left to right. *)
Definition schedule (delay : Z) (cs : list Choice) (p : Process) : Process :=
  foldl (λ p c, step delay c p) p cs.

(** The executions in which no two goroutines overlap: every call and
    every expiry runs to its end before anything else happens. *)
Inductive Serial :=
  | Notify (now : Z) (k : K)
  | Fire (timer : nat).

Definition serialStep (delay : Z) (a : Serial) (s : Timers K) : Timers K :=
  match a with
  | Notify now k => debounce logReset logStart now delay k s
  | Fire timer =>
      match fire timer s with
      | Some (_, s') => s'
      | None => s
      end
  end.

Definition serially (delay : Z) (acts : list Serial) (s : Timers K) : Timers K :=
  foldl (λ s a, serialStep delay a s) s acts.
End Interleaving.

Arguments Goroutine K : clear implicits.
Arguments Choice K : clear implicits.
Arguments Serial K : clear implicits.
Arguments Process K {_ _}.

(** ** Notions used by the proofs *)

Section DebounceNotions.
Context {K : Type} `{Countable K}.

(** The map and the armed timers describe each other: every entry
    points at an armed timer of its key and every armed timer is the
    entry of its key. *)
Definition consistent (s : Timers K) : Prop :=
  (∀ k i, table s !! k = Some i → live s i k) ∧
  (∀ i k, live s i k → table s !! k = Some i).

(** The number of armed timers. *)
Fixpoint npending (h : list (Timer K)) : nat :=
  match h with
  | [] => 0
  | tm :: r => (if when tm is Some _ then 1 else 0) + npending r
  end.

(** What one key sees of the clock reaching [t]: its countdown, if due,
    ends and is recorded. *)
Definition keyAdvance (k : K) (t : Z) (st : option Z * list (Z * K))
    : option Z * list (Z * K) :=
  match st.1 with
  | Some w => if bool_decide (w ≤ t) then (None, st.2 ++ [(w, k)]) else st
  | None => st
  end.

(** What one key sees of a stream of notifications. *)
Fixpoint keyRun (k : K) (delay : Z) (evs : list (Z * K))
    (st : option Z * list (Z * K)) : option Z * list (Z * K) :=
  match evs with
  | [] => st
  | (t, k') :: evs' =>
      let st1 := keyAdvance k t st in
      keyRun k delay evs'
        (if decide (k' = k) then (Some (expiry t delay), st1.2) else st1)
  end.

(** Notifications in the order of their instants. *)
Definition chronological (evs : list (Z * K)) : Prop :=
  StronglySorted (λ a b, a.1 ≤ b.1) evs.

(** The instants at which [k] is notified. *)
Definition timesOf (k : K) (evs : list (Z * K)) : list Z :=
  (filter (λ e, e.2 = k) evs).*1.

(** A burst: strictly increasing instants, each less than [delay] after
    the one before. *)
Fixpoint burst (delay : Z) (ts : list Z) : Prop :=
  match ts with
  | t1 :: (t2 :: _) as ts' => t1 < t2 ∧ t2 - t1 < delay ∧ burst delay ts'
  | _ => True
  end.
End DebounceNotions.

(** The containers the scan ranges over, and those it does not. *)
Definition mainContainers (deployment : apps.Deployment) : list Container.t :=
  PodSpec.Containers
    (PodTemplateSpec.Spec (DeploymentSpec.Template (apps.Spec deployment))).

Definition initContainers (deployment : apps.Deployment) : list Container.t :=
  PodSpec.InitContainers
    (PodTemplateSpec.Spec (DeploymentSpec.Template (apps.Spec deployment))).

(** The same workload with other init containers. *)
Definition withInitContainers (inits : list Container.t)
    (deployment : apps.Deployment) : apps.Deployment :=
  let spec := apps.Spec deployment in
  let tpl := DeploymentSpec.Template spec in
  apps.mkDeployment (apps.ObjectMeta deployment)
    (DeploymentSpec.mk (DeploymentSpec.Replicas spec)
       (PodTemplateSpec.mk (PodTemplateSpec.ObjectMeta tpl)
          (PodSpec.mk inits (PodSpec.Containers (PodTemplateSpec.Spec tpl))))).

(** A workload depends on a change when a source of one of its main
    containers refers to it. *)
Definition dependsOn (change : ChangeType.t) (deployment : apps.Deployment) : Prop :=
  Exists (refersTo change) (sourcesOf (mainContainers deployment)).

#[global] Instance dependsOn_dec change deployment :
  Decision (dependsOn change deployment).
Proof. unfold dependsOn. apply _. Defined.

(** What a scan over the sources [all] must return: either it stopped
    at the first source that refers to the change, or it saw them all
    and none does. *)
Definition scanned (change : ChangeType.t) (all : list Source)
    (r : list Source * bool) : Prop :=
  if r.2 then
    ∃ before src rest,
      all = before ++ src :: rest ∧ r.1 = before ++ [src] ∧
      refersTo change src ∧ Forall (λ x, ¬ refersTo change x) before
  else
    r.1 = all ∧ Forall (λ x, ¬ refersTo change x) all.

(** ** Example data *)

Definition cfgA : ChangeType.t := ChangeType.mk "ConfigMap" "cfg-a".
Definition secB : ChangeType.t := ChangeType.mk "Secret" "sec-b".

Definition plainMeta (name version : string) : ObjectMeta.t :=
  ObjectMeta.mk name "default" version None None.

Definition importing (configmap : string) : Container.t :=
  Container.mk "app" "nginx"
    [EnvFromSource.mk "" (Some (ConfigMapEnvSource.mk configmap)) None] [].

Definition idle : Container.t := Container.mk "idle" "busybox" [] [].

Definition workload (name version : string) (inits mains : list Container.t)
    : apps.Deployment :=
  apps.mkDeployment (plainMeta name version)
    (DeploymentSpec.mk (Some 1)
       (PodTemplateSpec.mk (plainMeta "" "") (PodSpec.mk inits mains))).

(** A container that reads one key of a secret. *)
Definition usingSecret (secret : string) : Container.t :=
  Container.mk "app" "nginx" []
    [EnvVar.mk "TOKEN" ""
       (Some (EnvVarSource.mk None (Some (SecretKeySelector.mk secret "token"))))].

(** A workload that imports cfg-a in its main container, and one that
    does so only in an init container. *)
Definition web : apps.Deployment := workload "web" "41" [] [importing "cfg-a"].
Definition migrate : apps.Deployment := workload "migrate" "7" [importing "cfg-a"] [idle].

(** A cluster that has lost the workload, and one that serves [web]. *)
Definition notFound : string → meta.GetOptions → Result apps.Deployment :=
  λ _ _, Err "not found".
Definition serving : string → meta.GetOptions → Result apps.Deployment :=
  λ _ _, Ok web.
Definition accepting : string → string → Result apps.Deployment :=
  λ _ _, Ok web.
Definition acceptingPatch : string → MergePatch → Result apps.Deployment :=
  λ _ _, Ok web.
Definition refusing : string → string → Result apps.Deployment :=
  λ _ _, Err "conflict".
Definition marshalName : apps.Deployment → Result string :=
  λ dep, Ok (ObjectMeta.Name (apps.ObjectMeta dep)).
Definition marshalFails : apps.Deployment → Result string :=
  λ _, Err "unsupported value".
Definition marshalUntouched : apps.Deployment → Result string :=
  λ dep, match topAnnotations dep with
         | None => Ok "{}"
         | Some _ => Err "unsupported value"
         end.
Definition concatPatch : string → string → Result string :=
  λ current updated, Ok (current +:+ updated).
Definition patchFails : string → string → Result string :=
  λ _ _, Err "mismatch".
Definition stamp : Z → string := λ _, "2017-11-03T00:00:00Z".

(** ** Notions for the whole course of a debouncer *)

(** The instants at which a key that is notified at [ts] settles by [T],
    for an arming span [d]: [d] after every notification that is not
    followed by another one sooner. *)
Fixpoint settlePoints (d : Z) (ts : list Z) (T : Z) : list Z :=
  match ts with
  | [] => []
  | t :: ts' =>
      match ts' with
      | [] => if bool_decide (t + d ≤ T) then [t + d] else []
      | t' :: _ =>
          if bool_decide (t + d ≤ t') then t + d :: settlePoints d ts' T
          else settlePoints d ts' T
      end
  end.

(** No instant of [ts] is the very instant at which the span [d] after
    the one before it ends. *)
Fixpoint untied (d : Z) (ts : list Z) : Prop :=
  match ts with
  | t1 :: (t2 :: _) as ts' => t2 ≠ t1 + d ∧ untied d ts'
  | _ => True
  end.

(** The settle points of a stream without ties: [d] after every
    notification that is followed by none until after that span. *)
Fixpoint settles (d : Z) (ts : list Z) (T : Z) : list Z :=
  match ts with
  | [] => []
  | t :: ts' =>
      match ts' with
      | [] => if bool_decide (t + d ≤ T) then [t + d] else []
      | t' :: _ =>
          if bool_decide (t + d < t') then t + d :: settles d ts' T
          else settles d ts' T
      end
  end.

(** Instants that are more than [d] apart. *)
Fixpoint apart (d : Z) (ts : list Z) : Prop :=
  match ts with
  | t1 :: (t2 :: _) as ts' => t1 + d < t2 ∧ apart d ts'
  | _ => True
  end.

(** Instants that are at least [d] apart. *)
Fixpoint spaced (d : Z) (ts : list Z) : Prop :=
  match ts with
  | t1 :: (t2 :: _) as ts' => t1 + d ≤ t2 ∧ spaced d ts'
  | _ => True
  end.

(** ** The resolver and the update debouncer together *)

(** A settled change at the instant [now]: the update timers due by then
    have fired, then the loop of [findAndQueueDeployments] runs over the
    listing [items]. *)
Definition resolveAt (now delay : Z) (change : ChangeType.t)
    (items : list apps.Deployment)
    (st : Timers Deployment.t * list (Z * Deployment.t))
    : Timers Deployment.t * list (Z * Deployment.t) :=
  let '(updateTimers, out) := runTimers now st.1 st.2 in
  (deploymentLoop now delay change items updateTimers, out).

(** From notifications to patches: the settled changes of the stream
    [evs], each resolved at its instant against the listing of that
    instant (every call of [List] succeeding), and the invocations of
    [patchDeployment] that the update timers make up to [T]. *)
Definition patchCalls (delay : Z) (evs : list (Z * ChangeType.t))
    (listing : Z → list apps.Deployment) (T : Z) : list (Z * Deployment.t) :=
  let st :=
    foldl (λ st sc, resolveAt sc.1 delay sc.2 (listing sc.1) st)
          (noTimers, []) (settledChanges delay evs T) in
  (runTimers T st.1 st.2).2.

(** The log line a call of [queueDeployment] prints for a workload is
    one of its two. *)
Definition queueLine (line : LogLine) (deployment : apps.Deployment) : Prop :=
  line = ResettingQueuedUpdate (ObjectMeta.Name (apps.ObjectMeta deployment)) ∨
  line = QueuingUpdate (ObjectMeta.Name (apps.ObjectMeta deployment)).

(** Is the action a log line? *)
Definition isLog {Bytes : Type} (a : Action Bytes) : bool :=
  match a with Log _ => true | _ => false end.

(** ** Start-up

    [main] up to the point where it starts the two watchers.  The
    environment, [strconv.Atoi], [rest.InClusterConfig] and the making
    of the client are as they answer. *)

Module rest.
Record Config := mkConfig { Host : string }.
End rest.

Module Settings.
(** The globals [namespace], [delay] and [config] once [main] has set
    them. *)
Record t := mk { namespace : string; delay : Z; config : rest.Config }.
End Settings.

(** [time.Second], in nanoseconds. *)
Definition Second : Z := 1000000000.

(** The value of a 64-bit signed integer after an operation that
    overflows. *)
Definition wrap64 (z : Z) : Z := (z + 2 ^ 63) mod 2 ^ 64 - 2 ^ 63.

(** [time.Duration(n) * time.Second] *)
Definition seconds (n : Z) : Z := wrap64 (wrap64 n * Second).

(** The log line of [main]; [%.0fs] of [delay.Seconds()] is kept as the
    duration. *)
Inductive StartupLine :=
  | Connecting (host namespace : string) (delay : Z).

Section Startup.
Variable Getenv : string → string.
Variable Atoi : string → Result Z.
Variable InClusterConfig : Result rest.Config.
(** [kubernetes.NewForConfig], whose error [NewForConfigOrDie] panics
    with. *)
Variable NewForConfig : rest.Config → option error.

(** [ns := os.Getenv(...); if ns != "" { namespace = ns }] *)
Definition chooseNamespace : string :=
  let ns := Getenv "CONFIGMASTER_NAMESPACE" in
  if bool_decide (ns ≠ "") then ns else "default".

(** [d := os.Getenv(...); if d != "" { di, err := strconv.Atoi(d); ... }] *)
Definition chooseDelay : Outcome Z :=
  let d := Getenv "CONFIGMASTER_DELAY" in
  if bool_decide (d ≠ "") then
    match Atoi d with
    | Err err => Panicked (PanicError err)
    | Ok di => Returned (seconds di)
    end
  else Returned (seconds 5).

(** The [if] that picks the in-cluster configuration or the explicit
    host. *)
Definition chooseConfig : Outcome rest.Config :=
  if bool_decide (Getenv "KUBERNETES_SERVICE_HOST" ≠ "") &&
     bool_decide (Getenv "KUBERNETES_SERVICE_PORT" ≠ "")
  then
    match InClusterConfig with
    | Err err => Panicked (PanicError err)
    | Ok config => Returned config
    end
  else
    if bool_decide (Getenv "CONFIGMASTER_HOST" = "")
    then Panicked (PanicError "Must export CONFIGMASTER_HOST")
    else Returned (rest.mkConfig (Getenv "CONFIGMASTER_HOST")).

(** [main], from its first line to the log line. *)
Definition startup : Outcome (Settings.t * StartupLine) :=
  let namespace := chooseNamespace in
  andThen chooseDelay (λ delay,
  andThen chooseConfig (λ config,
    match NewForConfig config with
    | Some err => Panicked (PanicError err)
    | None =>
        Returned (Settings.mk namespace delay config,
                  Connecting (rest.Host config) namespace delay)
    end)).
End Startup.

(** An environment given as a list of settings; an unset variable reads
    as the empty string. *)
Definition environment (vars : list (string * string)) : string → string :=
  λ name, default "" (list_to_map (M := gmap string string) vars !! name).

(** A decimal reader that knows two inputs, for the examples. *)
Definition atoiExample (s : string) : Result Z :=
  if bool_decide (s = "30") then Ok 30
  else if bool_decide (s = "-1") then Ok (-1)
  else Err ("strconv.Atoi: parsing " +:+ s +:+ ": invalid syntax").

(** The descriptor the body of a watch loop makes of an event, when its
    type assertion holds. *)
Definition configMapChange (event : watch.Event) : option ChangeType.t :=
  (λ configmap,
     ChangeType.mk "ConfigMap" (ObjectMeta.Name (ConfigMap.ObjectMeta configmap)))
  <$> assertConfigMap (watch.Object_ event).

Definition secretChange (event : watch.Event) : option ChangeType.t :=
  (λ secret,
     ChangeType.mk "Secret" (ObjectMeta.Name (Secret.ObjectMeta secret)))
  <$> assertSecret (watch.Object_ event).

(** Calls of [delayedUpdate] one after the other. *)
Definition notifyAll (delay : Z) (changes : list (Z * ChangeType.t))
    (changeTimers : Timers ChangeType.t) : Timers ChangeType.t :=
  foldl (λ s tc, delayedUpdate tc.1 delay tc.2 s) changeTimers changes.

(** ** What every interleaving keeps *)

Section InterleavingNotions.
Context {K : Type} `{Countable K}.

(** The key a goroutine works for satisfies [S]. *)
Definition goroutineFor (S : K → Prop) (g : Goroutine K) : Prop :=
  match g with
  | Entering k | Looked k _ | Closure k => S k
  | Finished => True
  end.

(** Every key the process holds anywhere (in a timer, in a goroutine, in
    an invocation it has made) satisfies [S]. *)
Definition keysWithin (S : K → Prop) (p : Process K) : Prop :=
  Forall (λ tm, S (captured tm)) (heap (timers p)) ∧
  Forall (goroutineFor S) (goroutines p) ∧
  Forall (λ e, S e.2) (invoked p).

(** Every timer the process can reach through the map, or through what a
    goroutine has read from the map, was made for the key it is reached
    under. *)
Definition ownTimers (p : Process K) : Prop :=
  (∀ k i, table (timers p) !! k = Some i →
     ∃ w, heap (timers p) !! i = Some (mkTimer k w)) ∧
  (∀ g k i, goroutines p !! g = Some (Looked k (Some i)) →
     ∃ w, heap (timers p) !! i = Some (mkTimer k w)).
End InterleavingNotions.

(** * Properties *)

Section DebounceFacts.
Context {K : Type} `{Countable K}.
Variables logReset logStart : K → LogLine.

Implicit Types (s : Timers K) (h : list (Timer K)) (k : K).

Lemma earliest_armed h w i :
  earliest h = Some (w, i) → ∃ k, h !! i = Some (mkTimer k (Some w)).
Proof.
  revert w i. induction h as [|[k0 [w0|]] r IH]; intros w i; simpl.
  - done.
  - destruct (earliest r) as [[wr ir]|] eqn:Er; simpl.
    + case_bool_decide; intros [= <- <-]; [by eexists|].
      by apply IH.
    + intros [= <- <-]. by eexists.
  - destruct (earliest r) as [[wr ir]|] eqn:Er; simpl; [|done].
    intros [= <- <-]. by apply IH.
Qed.

Lemma earliest_least h w i j k w' :
  earliest h = Some (w, i) → h !! j = Some (mkTimer k (Some w')) → w ≤ w'.
Proof.
  revert w i j. induction h as [|[k0 [w0|]] r IH]; intros w i j; simpl.
  - done.
  - destruct (earliest r) as [[wr ir]|] eqn:Er; simpl.
    + case_bool_decide; intros [= <- <-]; destruct j as [|j]; simpl.
      * intros [= <-]. lia.
      * intros Hj. specialize (IH _ _ _ eq_refl Hj). lia.
      * intros [= <-]. lia.
      * intros Hj. by apply (IH _ _ _ eq_refl Hj).
    + intros [= <- <-]. destruct j as [|j]; simpl.
      * intros [= <-]. lia.
      * intros Hj. clear IH. exfalso. revert j Hj Er.
        induction r as [|[k1 [w1|]] r' IH']; intros j; [done|..].
        -- simpl. destruct (earliest r') as [[? ?]|]; simpl;
             [case_bool_decide|]; done.
        -- destruct j as [|j]; [done|]. simpl.
           destruct (earliest r') as [[? ?]|] eqn:Er'; simpl; [done|].
           intros Hj _. by apply (IH' j).
  - destruct (earliest r) as [[wr ir]|] eqn:Er; simpl; [|done].
    intros [= <- <-]. destruct j as [|j]; simpl; [done|].
    intros Hj. by apply (IH _ _ _ eq_refl Hj).
Qed.

Lemma earliest_None h j k w :
  earliest h = None → h !! j ≠ Some (mkTimer k (Some w)).
Proof.
  revert j. induction h as [|[k0 [w0|]] r IH]; intros j; simpl.
  - done.
  - destruct (earliest r) as [[? ?]|]; simpl; [case_bool_decide|]; done.
  - destruct (earliest r) as [[? ?]|] eqn:Er; simpl; [done|].
    intros _. destruct j as [|j]; simpl; [done|]. by apply IH.
Qed.

Lemma npending_zero h j k w :
  npending h = 0%nat → h !! j ≠ Some (mkTimer k (Some w)).
Proof.
  revert j. induction h as [|[k0 [w0|]] r IH]; intros j; simpl; [done..|].
  intros Hn. destruct j as [|j]; simpl; [done|]. by apply IH.
Qed.

Lemma npending_le_length h : (npending h ≤ length h)%nat.
Proof. induction h as [|[k0 [w0|]] r IH]; simpl; lia. Qed.

Lemma npending_expire h i k w :
  h !! i = Some (mkTimer k (Some w)) →
  S (npending (expire i h)) = npending h.
Proof.
  revert i. induction h as [|tm r IH]; intros i; [done|].
  destruct i as [|i]; simpl.
  - intros [= ->]. done.
  - intros Hi. rewrite <- (IH _ Hi). unfold expire.
    destruct (when tm); simpl; lia.
Qed.

Lemma live_inj s i k k' : live s i k → live s i k' → k = k'.
Proof. intros [w Hw] [w' Hw']. congruence. Qed.

Lemma deadline_Some s k w :
  consistent s →
  deadline s k = Some w ↔ ∃ i, heap s !! i = Some (mkTimer k (Some w)).
Proof.
  intros [Hc1 Hc2]. unfold deadline. split.
  - destruct (table s !! k) as [i|] eqn:Hk; simpl; [|done].
    destruct (Hc1 _ _ Hk) as [w' Hw']. rewrite Hw'. simpl.
    intros [= ->]. eauto.
  - intros [i Hi]. rewrite (Hc2 i k) by (by exists w). simpl.
    by rewrite Hi.
Qed.

Lemma deadline_None s k :
  consistent s →
  deadline s k = None ↔ ∀ i w, heap s !! i ≠ Some (mkTimer k (Some w)).
Proof.
  intros Hc. split.
  - intros Hd i w Hi.
    assert (deadline s k = Some w) by (apply deadline_Some; eauto).
    congruence.
  - intros Hn. destruct (deadline s k) as [w|] eqn:Hd; [|done].
    apply deadline_Some in Hd as [i Hi]; [|done]. by destruct (Hn i w).
Qed.

Lemma consistent_noTimers : consistent (noTimers (K:=K)).
Proof.
  split.
  - intros k i. unfold noTimers. simpl. by rewrite lookup_empty.
  - intros i k [w Hw]. done.
Qed.

Lemma debounce_found now delay k s i :
  table s !! k = Some i →
  debounce logReset logStart now delay k s =
    mkTimers (table s) (Reset now delay i (heap s)) (logs s ++ [logReset k]).
Proof. unfold debounce, lookupTimer. by intros ->. Qed.

Lemma debounce_absent now delay k s :
  table s !! k = None →
  debounce logReset logStart now delay k s =
    mkTimers (<[k := length (heap s)]> (table s))
             (heap s ++ [mkTimer k (Some (expiry now delay))])
             (logs s ++ [logStart k]).
Proof. unfold debounce, lookupTimer. by intros ->. Qed.

Lemma consistent_debounce now delay k s :
  consistent s → consistent (debounce logReset logStart now delay k s).
Proof.
  intros [Hc1 Hc2].
  destruct (table s !! k) as [i|] eqn:Hk.
  - rewrite (debounce_found _ _ _ _ _ Hk).
    destruct (Hc1 _ _ Hk) as [w Hw].
    split; unfold live, Reset; simpl.
    + intros k' i' Hk'. destruct (decide (i' = i)) as [->|Hne].
      * assert (k = k') as <- by eauto using live_inj.
        rewrite list_lookup_alter_eq, Hw. simpl. eauto.
      * rewrite list_lookup_alter_ne by done. by apply Hc1.
    + intros i' k' [w' Hw']. destruct (decide (i' = i)) as [->|Hne].
      * rewrite list_lookup_alter_eq, Hw in Hw'. simpl in Hw'.
        by injection Hw' as <- _.
      * rewrite list_lookup_alter_ne in Hw' by done. apply Hc2. by exists w'.
  - rewrite (debounce_absent _ _ _ _ Hk).
    split; unfold live; simpl.
    + intros k' i'. destruct (decide (k' = k)) as [->|Hne].
      * rewrite lookup_insert_eq. intros [= <-].
        exists (expiry now delay).
        rewrite lookup_app_r by lia. by rewrite Nat.sub_diag.
      * rewrite lookup_insert_ne by done. intros Hk'.
        destruct (Hc1 _ _ Hk') as [w Hw]. exists w.
        by apply lookup_app_l_Some.
    + intros i' k' [w' Hw'].
      apply lookup_app_Some in Hw' as [Hw'|[Hlen Hw']].
      * assert (table s !! k' = Some i') as Hk' by (apply Hc2; by exists w').
        rewrite lookup_insert_ne by congruence. done.
      * apply list_lookup_singleton_Some in Hw' as [Hi' [= <- _]].
        rewrite lookup_insert_eq. f_equal. lia.
Qed.

Lemma deadline_debounce now delay k s k' :
  consistent s →
  deadline (debounce logReset logStart now delay k s) k' =
    if decide (k' = k) then Some (expiry now delay) else deadline s k'.
Proof.
  intros Hc. pose proof Hc as [Hc1 Hc2].
  destruct (table s !! k) as [i|] eqn:Hk.
  - rewrite (debounce_found _ _ _ _ _ Hk). unfold deadline, Reset. simpl.
    destruct (Hc1 _ _ Hk) as [w Hw].
    case_decide as Hkk; [subst k'|].
    + rewrite Hk. simpl. by rewrite list_lookup_alter_eq, Hw.
    + destruct (table s !! k') as [i'|] eqn:Hk'; simpl; [|done].
      rewrite list_lookup_alter_ne; [done|].
      intros <-. apply Hkk. symmetry. eauto using live_inj.
  - rewrite (debounce_absent _ _ _ _ Hk). unfold deadline. simpl.
    case_decide as Hkk; [subst k'|].
    + rewrite lookup_insert_eq. simpl.
      rewrite lookup_app_r by lia. by rewrite Nat.sub_diag.
    + rewrite lookup_insert_ne by done.
      destruct (table s !! k') as [i'|] eqn:Hk'; simpl; [|done].
      destruct (Hc1 _ _ Hk') as [w Hw].
      by rewrite (lookup_app_l_Some _ _ _ _ Hw), Hw.
Qed.

Lemma fire_armed s i k w :
  heap s !! i = Some (mkTimer k (Some w)) →
  fire i s = Some (k, mkTimers (delete k (table s)) (expire i (heap s)) (logs s)).
Proof. unfold fire. by intros ->. Qed.

Lemma consistent_fire s i k w :
  consistent s →
  heap s !! i = Some (mkTimer k (Some w)) →
  consistent (mkTimers (delete k (table s)) (expire i (heap s)) (logs s)).
Proof.
  intros [Hc1 Hc2] Hi.
  assert (table s !! k = Some i) as Hk by (apply Hc2; by exists w).
  split; unfold live, expire; simpl.
  - intros k' i'. destruct (decide (k' = k)) as [->|Hne].
    + by rewrite lookup_delete_eq.
    + rewrite lookup_delete_ne by done. intros Hk'.
      destruct (Hc1 _ _ Hk') as [w' Hw']. exists w'.
      rewrite list_lookup_alter_ne; [done|].
      intros ->. apply Hne. congruence.
  - intros i' k' [w' Hw']. destruct (decide (i' = i)) as [->|Hne].
    + rewrite list_lookup_alter_eq, Hi in Hw'. done.
    + rewrite list_lookup_alter_ne in Hw' by done.
      assert (table s !! k' = Some i') as Hk' by (apply Hc2; by exists w').
      rewrite lookup_delete_ne; [done|]. congruence.
Qed.

Lemma deadline_fire s i k w k' :
  consistent s →
  heap s !! i = Some (mkTimer k (Some w)) →
  deadline (mkTimers (delete k (table s)) (expire i (heap s)) (logs s)) k' =
    if decide (k' = k) then None else deadline s k'.
Proof.
  intros [Hc1 Hc2] Hi.
  assert (table s !! k = Some i) as Hk by (apply Hc2; by exists w).
  unfold deadline, expire. simpl. case_decide as Hkk; [subst k'|].
  - by rewrite lookup_delete_eq.
  - rewrite lookup_delete_ne by done.
    destruct (table s !! k') as [i'|] eqn:Hk'; simpl; [|done].
    rewrite list_lookup_alter_ne; [done|].
    intros <-. destruct (Hc1 _ _ Hk') as [w' Hw']. congruence.
Qed.

Lemma callsFor_snoc k out w k' :
  callsFor k (out ++ [(w, k')]) =
    callsFor k out ++ (if decide (k' = k) then [(w, k')] else []).
Proof.
  unfold callsFor. rewrite filter_app. by f_equal.
Qed.

Lemma keyAdvance_idle k t out : keyAdvance k t (None, out) = (None, out).
Proof. done. Qed.

Lemma keyAdvance_later k t w out :
  t < w → keyAdvance k t (Some w, out) = (Some w, out).
Proof. intros. unfold keyAdvance. simpl. by rewrite bool_decide_eq_false_2 by lia. Qed.

Lemma keyAdvance_due k t w out :
  w ≤ t → keyAdvance k t (Some w, out) = (None, out ++ [(w, k)]).
Proof. intros. unfold keyAdvance. simpl. by rewrite bool_decide_eq_true_2. Qed.

(** [advance] is, for every key, what [keyAdvance] says. *)
Lemma advance_key fuel t s out :
  consistent s →
  (npending (heap s) ≤ fuel)%nat →
  consistent (advance fuel t s out).1 ∧
  ∀ k, (deadline (advance fuel t s out).1 k, callsFor k (advance fuel t s out).2)
       = keyAdvance k t (deadline s k, callsFor k out).
Proof.
  revert s out. induction fuel as [|fuel IH]; intros s out Hc Hfuel.
  - simpl. split; [done|]. intros k.
    rewrite (proj2 (deadline_None s k Hc)); [done|].
    intros i w. apply npending_zero. lia.
  - simpl. destruct (earliest (heap s)) as [[w i]|] eqn:He.
    + destruct (earliest_armed _ _ _ He) as [k0 Hi].
      case_bool_decide as Hw.
      * rewrite (fire_armed _ _ _ _ Hi).
        set (s' := mkTimers (delete k0 (table s)) (expire i (heap s)) (logs s)).
        assert (consistent s') as Hc' by eauto using consistent_fire.
        assert (npending (heap s') ≤ fuel)%nat as Hfuel'.
        { pose proof (npending_expire _ _ _ _ Hi). simpl. lia. }
        destruct (IH s' (out ++ [(w, k0)]) Hc' Hfuel') as [Hc'' Hk].
        split; [done|]. intros k. rewrite Hk.
        unfold s'. rewrite (deadline_fire _ _ _ _ _ Hc Hi), callsFor_snoc.
        case_decide as Hkk.
        -- subst k. assert (deadline s k0 = Some w) as ->
             by (apply deadline_Some; eauto).
           rewrite keyAdvance_due by done.
           by rewrite decide_True by done.
        -- rewrite decide_False by congruence. by rewrite app_nil_r.
      * simpl. split; [done|]. intros k.
        destruct (deadline s k) as [w'|] eqn:Hd; [|done].
        apply deadline_Some in Hd as [j Hj]; [|done].
        pose proof (earliest_least _ _ _ _ _ _ He Hj).
        rewrite keyAdvance_later by lia. done.
    + simpl. split; [done|]. intros k.
      rewrite (proj2 (deadline_None s k Hc)); [done|].
      intros j w. by apply earliest_None.
Qed.

Lemma runTimers_key t s out :
  consistent s →
  consistent (runTimers t s out).1 ∧
  ∀ k, (deadline (runTimers t s out).1 k, callsFor k (runTimers t s out).2)
       = keyAdvance k t (deadline s k, callsFor k out).
Proof. intros Hc. apply advance_key; [done|]. apply npending_le_length. Qed.

(** [run] is, for every key, what [keyRun] says. *)
Lemma run_key delay evs s out :
  consistent s →
  consistent (run logReset logStart delay evs s out).1 ∧
  ∀ k, (deadline (run logReset logStart delay evs s out).1 k,
        callsFor k (run logReset logStart delay evs s out).2)
       = keyRun k delay evs (deadline s k, callsFor k out).
Proof.
  revert s out. induction evs as [|[t k'] evs IH]; intros s out Hc.
  - simpl. done.
  - simpl. destruct (runTimers_key t s out Hc) as [Hc1 Hk1].
    destruct (runTimers t s out) as [s1 out1] eqn:Hr. simpl in *.
    destruct (IH (debounce logReset logStart t delay k' s1) out1) as [Hc2 Hk2].
    { by apply consistent_debounce. }
    split; [done|]. intros k. rewrite Hk2, <- Hk1.
    rewrite deadline_debounce by done. simpl.
    destruct (decide (k = k')) as [->|Hne].
    + by rewrite decide_True by done.
    + by rewrite decide_False by congruence.
Qed.

Lemma simulate_key delay evs T k :
  callsFor k (simulate logReset logStart delay evs T) =
    (keyAdvance k T (keyRun k delay evs (None, []))).2.
Proof.
  unfold simulate.
  destruct (run_key delay evs noTimers [] consistent_noTimers) as [Hc Hk].
  destruct (run logReset logStart delay evs noTimers []) as [s out] eqn:Hr.
  simpl in *. destruct (runTimers_key T s out Hc) as [_ Hk'].
  specialize (Hk k). specialize (Hk' k).
  change (deadline noTimers k) with (@None Z) in Hk.
  change (callsFor k []) with (@nil (Z * K)) in Hk.
  rewrite <- Hk, <- Hk'. done.
Qed.

(** The clock passing [t] on its way to [t'] changes nothing. *)
Lemma keyAdvance_absorb k t t' st :
  t ≤ t' → keyAdvance k t' (keyAdvance k t st) = keyAdvance k t' st.
Proof.
  intros Ht. destruct st as [[w|] out]; [|done].
  destruct (decide (w ≤ t)).
  - rewrite (keyAdvance_due k t) by done.
    rewrite keyAdvance_idle, keyAdvance_due by lia. done.
  - rewrite (keyAdvance_later k t) by lia. done.
Qed.

Lemma keyRun_absorb k delay evs t T st :
  t ≤ T → Forall (λ e, t ≤ e.1) evs →
  keyAdvance k T (keyRun k delay evs (keyAdvance k t st)) =
  keyAdvance k T (keyRun k delay evs st).
Proof.
  intros HT Hevs. destruct evs as [|[t' k'] evs].
  - simpl. by apply keyAdvance_absorb.
  - simpl. apply Forall_cons_1 in Hevs as [Ht' _]. simpl in Ht'.
    by rewrite keyAdvance_absorb.
Qed.

(** Dropping notifications of other keys changes nothing for [k]. *)
Lemma keyRun_filter k delay (P : Z * K → Prop) `{∀ e, Decision (P e)} evs T st :
  (∀ e, e.2 = k → P e) →
  chronological evs → Forall (λ e, e.1 ≤ T) evs →
  keyAdvance k T (keyRun k delay (filter P evs) st) =
  keyAdvance k T (keyRun k delay evs st).
Proof.
  intros HP Hsorted HT. revert st.
  induction evs as [|[t k'] evs IH]; intros st; [done|].
  apply StronglySorted_inv in Hsorted as [Hsorted Hle].
  apply Forall_cons_1 in HT as [Ht HT]. simpl in Ht.
  destruct (decide (P (t, k'))) as [Hp|Hp].
  - rewrite filter_cons_True by done. simpl. by apply IH.
  - rewrite filter_cons_False by done. simpl.
    rewrite decide_False by (intros ->; by apply Hp, HP).
    rewrite IH by done. symmetry. apply keyRun_absorb; done.
Qed.

Lemma keyRun_cons k delay t k' evs st :
  keyRun k delay ((t, k') :: evs) st =
    keyRun k delay evs
      (if decide (k' = k) then (Some (expiry t delay), (keyAdvance k t st).2)
       else keyAdvance k t st).
Proof. done. Qed.

(** A burst keeps the countdown of its key running up to [delay] after
    its last notification. *)
Lemma keyRun_burst k delay t0 ts out :
  0 ≤ delay → burst delay (t0 :: ts) →
  keyRun k delay ((λ t, (t, k)) <$> ts) (Some (t0 + delay), out) =
    (Some (default t0 (last ts) + delay), out).
Proof.
  intros Hd. revert t0. induction ts as [|t1 ts IH]; intros t0 Hb; [done|].
  destruct Hb as (Hlt & Hgap & Hb).
  rewrite fmap_cons, keyRun_cons, keyAdvance_later by lia.
  rewrite decide_True by done.
  unfold expiry. rewrite Z.max_r by done. cbn [snd]. rewrite (IH _ Hb).
  rewrite last_cons. by destruct (last ts).
Qed.

Lemma filter_key_times k (evs : list (Z * K)) :
  filter (λ e, e.2 = k) evs = (λ t, (t, k)) <$> timesOf k evs.
Proof.
  unfold timesOf. induction evs as [|[t k'] evs IH]; [done|].
  destruct (decide (k' = k)) as [->|Hne].
  - rewrite filter_cons_True by done. simpl. by f_equal.
  - by rewrite filter_cons_False by done.
Qed.

(** The theorem of the debouncer: one invocation per burst, [delay]
    after its last notification. *)
Lemma simulate_burst delay evs k tN T :
  0 ≤ delay →
  chronological evs → Forall (λ e, e.1 ≤ T) evs →
  burst delay (timesOf k evs) →
  last (timesOf k evs) = Some tN →
  tN + delay ≤ T →
  callsFor k (simulate logReset logStart delay evs T) = [(tN + delay, k)].
Proof.
  intros Hd Hsorted HT Hb Hlast HN.
  rewrite simulate_key.
  rewrite <- (keyRun_filter k delay (λ e, e.2 = k)) by done.
  rewrite filter_key_times.
  destruct (timesOf k evs) as [|t1 ts]; [done|].
  rewrite fmap_cons, keyRun_cons, decide_True by done.
  unfold expiry at 1. rewrite Z.max_r by done. cbn [snd keyAdvance fst].
  rewrite (keyRun_burst _ _ _ _ _ Hd Hb).
  assert (default t1 (last ts) = tN) as ->.
  { rewrite last_cons in Hlast. destruct (last ts); simpl; congruence. }
  by rewrite keyAdvance_due.
Qed.

(** The notifications of one key are invisible to another. *)
Lemma simulate_other_key delay evs k k' T :
  k' ≠ k →
  chronological evs → Forall (λ e, e.1 ≤ T) evs →
  callsFor k (simulate logReset logStart delay (filter (λ e, e.2 ≠ k') evs) T) =
  callsFor k (simulate logReset logStart delay evs T).
Proof.
  intros Hne Hsorted HT. rewrite !simulate_key.
  rewrite (keyRun_filter k delay (λ e, e.2 ≠ k')); [done| |done..].
  intros e ->. done.
Qed.

Lemma table_deadline s k :
  consistent s → table s !! k = None ↔ deadline s k = None.
Proof.
  intros [Hc1 Hc2]. unfold deadline. split.
  - by intros ->.
  - destruct (table s !! k) as [i|] eqn:Hk; [|done]. simpl.
    destruct (Hc1 _ _ Hk) as [w Hw]. by rewrite Hw.
Qed.

(** The first branch of the body. *)
Lemma debounce_reset now delay k s timer :
  table s !! k = Some timer → live s timer k →
  let s' := debounce logReset logStart now delay k s in
  table s' = table s ∧
  heap s' !! timer = Some (mkTimer k (Some (expiry now delay))) ∧
  (∀ j, j ≠ timer → heap s' !! j = heap s !! j) ∧
  length (heap s') = length (heap s) ∧
  logs s' = logs s ++ [logReset k].
Proof.
  intros Hk [w Hw]. simpl. rewrite (debounce_found _ _ _ _ _ Hk).
  unfold Reset. simpl. repeat split.
  - by rewrite list_lookup_alter_eq, Hw.
  - intros j Hj. by rewrite list_lookup_alter_ne.
  - by rewrite length_alter.
Qed.

(** The second branch of the body. *)
Lemma debounce_start now delay k s :
  consistent s →
  (¬ ∃ timer, table s !! k = Some timer ∧ live s timer k) →
  let s' := debounce logReset logStart now delay k s in
  table s' = <[k := length (heap s)]> (table s) ∧
  heap s' = heap s ++ [mkTimer k (Some (expiry now delay))] ∧
  logs s' = logs s ++ [logStart k].
Proof.
  intros [Hc1 Hc2] Hno. simpl.
  destruct (table s !! k) as [i|] eqn:Hk.
  - destruct Hno. exists i. split; [done|]. by apply Hc1.
  - by rewrite (debounce_absent _ _ _ _ Hk).
Qed.

(** A countdown that is left alone ends at its instant, once. *)
Lemma runTimers_expiry s k w T out :
  consistent s → deadline s k = Some w →
  (w ≤ T →
     table (runTimers T s out).1 !! k = None ∧
     callsFor k (runTimers T s out).2 = callsFor k out ++ [(w, k)]) ∧
  (T < w →
     deadline (runTimers T s out).1 k = Some w ∧
     callsFor k (runTimers T s out).2 = callsFor k out).
Proof.
  intros Hc Hd. destruct (runTimers_key T s out Hc) as [Hc' Hk].
  specialize (Hk k). rewrite Hd in Hk. split; intros HT.
  - rewrite keyAdvance_due in Hk by done. injection Hk as Hk1 Hk2.
    split; [|done]. by apply table_deadline.
  - rewrite keyAdvance_later in Hk by done. by injection Hk as Hk1 Hk2.
Qed.

Lemma consistent_atMostOne s : consistent s → atMostOneLiveTimerPerKey s.
Proof.
  intros [Hc1 Hc2] k i j Hi Hj.
  apply Hc2 in Hi. apply Hc2 in Hj. congruence.
Qed.

Lemma consistent_serialStep delay a s :
  consistent s → consistent (serialStep logReset logStart delay a s).
Proof.
  intros Hc. destruct a as [now k|timer]; simpl.
  - by apply consistent_debounce.
  - destruct (heap s !! timer) as [[k [w|]]|] eqn:Hi.
    + rewrite (fire_armed _ _ _ _ Hi). eauto using consistent_fire.
    + unfold fire. by rewrite Hi.
    + unfold fire. by rewrite Hi.
Qed.

Lemma consistent_serially delay acts s :
  consistent s → consistent (serially logReset logStart delay acts s).
Proof.
  revert s. induction acts as [|a acts IH]; intros s Hc; [done|].
  simpl. apply IH. by apply consistent_serialStep.
Qed.

(** A call that runs alone is three steps of the interleaving: the
    arrival of the goroutine and its two statements. *)
Lemma schedule_call_alone delay k (p : Process K) :
  let g := length (goroutines p) in
  timers (schedule logReset logStart delay [Call k; Step g; Step g] p) =
    debounce logReset logStart (clock p) delay k (timers p).
Proof.
  simpl. unfold schedule. simpl.
  rewrite lookup_app_r by lia. rewrite Nat.sub_diag. simpl.
  rewrite list_lookup_insert_eq by (rewrite length_app; simpl; lia).
  done.
Qed.

(** An expiry that runs alone is two steps: the runtime takes the timer
    and the closure deletes the entry. *)
Lemma schedule_expiry_alone delay timer k w (p : Process K) :
  let g := length (goroutines p) in
  heap (timers p) !! timer = Some (mkTimer k (Some w)) → w ≤ clock p →
  Some (k, timers (schedule logReset logStart delay [Expire timer; Step g] p)) =
    fire timer (timers p).
Proof.
  simpl. intros Hi Hw. unfold schedule. simpl. rewrite Hi.
  rewrite bool_decide_eq_true_2 by done. simpl.
  rewrite lookup_app_r by lia. rewrite Nat.sub_diag. simpl.
  by rewrite (fire_armed _ _ _ _ Hi).
Qed.
End DebounceFacts.

(** ** The dependency scan *)

Section ScanFacts.
Variable change : ChangeType.t.

Lemma envFrom_refers env :
  configMapRefMatches change env || secretRefMatches change env = true ↔
  refersTo change (FromEnvFrom env).
Proof.
  unfold configMapRefMatches, secretRefMatches, refersTo. simpl.
  destruct change as [ty nm]. simpl.
  rewrite orb_true_iff, !andb_true_iff.
  destruct (EnvFromSource.ConfigMapRef env) as [[n1]|],
           (EnvFromSource.SecretRef env) as [[n2]|]; simpl;
    rewrite ?bool_decide_eq_true, ?elem_of_cons, ?elem_of_nil;
    intuition congruence.
Qed.

Lemma env_refers env :
  configMapKeyRefMatches change env || secretKeyRefMatches change env = true ↔
  refersTo change (FromEnv env).
Proof.
  unfold configMapKeyRefMatches, secretKeyRefMatches, refersTo. simpl.
  destruct change as [ty nm]. simpl.
  rewrite orb_true_iff, !andb_true_iff.
  destruct (EnvVar.ValueFrom env) as [[[[n1 k1]|] [[n2 k2]|]]|]; simpl;
    rewrite ?bool_decide_eq_true, ?elem_of_cons, ?elem_of_nil;
    intuition congruence.
Qed.

Lemma scanned_hit src rest :
  refersTo change src → scanned change (src :: rest) ([src], true).
Proof. intros Hsrc. exists [], src, rest. by repeat split. Qed.

Lemma scanned_skip src all r :
  ¬ refersTo change src → scanned change all r →
  scanned change (src :: all) (src :: r.1, r.2).
Proof.
  intros Hsrc. unfold scanned. destruct r as [seen [|]]; simpl.
  - intros (before & x & rest & -> & -> & Hx & Hbefore).
    exists (src :: before), x, rest. repeat split; try done.
    by constructor.
  - intros [-> Hall]. split; [done|]. by constructor.
Qed.

Lemma scanned_app all1 all2 r1 r2 :
  scanned change all1 r1 → scanned change all2 r2 →
  scanned change (all1 ++ all2)
    (if r1.2 then r1 else (r1.1 ++ r2.1, r2.2)).
Proof.
  unfold scanned. destruct r1 as [seen1 [|]]; simpl.
  - intros (before & x & rest & -> & -> & Hx & Hbefore) _.
    exists before, x, (rest ++ all2). repeat split; try done.
    by rewrite <- app_assoc.
  - intros [-> Hall1]. destruct r2 as [seen2 [|]]; simpl.
    + intros (before & x & rest & -> & -> & Hx & Hbefore).
      exists (all1 ++ before), x, rest. repeat split; try done.
      * by rewrite <- app_assoc.
      * by rewrite <- app_assoc.
      * by apply Forall_app.
    + intros [-> Hall2]. split; [done|]. by apply Forall_app.
Qed.

Lemma scanEnvFrom_scanned envs :
  scanned change (FromEnvFrom <$> envs) (scanEnvFrom change envs).
Proof.
  induction envs as [|env envs IH]; simpl.
  - by split.
  - pose proof (envFrom_refers env) as Href.
    destruct (configMapRefMatches change env) eqn:Hcm.
    { apply scanned_hit, Href. done. }
    destruct (secretRefMatches change env) eqn:Hs.
    { apply scanned_hit, Href. done. }
    destruct (scanEnvFrom change envs) as [seen found].
    apply (scanned_skip _ _ (seen, found)); [|done].
    intros Hx. apply Href in Hx. done.
Qed.

Lemma scanEnv_scanned envs :
  scanned change (FromEnv <$> envs) (scanEnv change envs).
Proof.
  induction envs as [|env envs IH]; simpl.
  - by split.
  - pose proof (env_refers env) as Href.
    destruct (configMapKeyRefMatches change env) eqn:Hcm.
    { apply scanned_hit, Href. done. }
    destruct (secretKeyRefMatches change env) eqn:Hs.
    { apply scanned_hit, Href. done. }
    destruct (scanEnv change envs) as [seen found].
    apply (scanned_skip _ _ (seen, found)); [|done].
    intros Hx. apply Href in Hx. done.
Qed.

Lemma scanContainers_scanned containers :
  scanned change (sourcesOf containers) (scanContainers change containers).
Proof.
  induction containers as [|c cs IH]; simpl.
  - by split.
  - pose proof (scanEnvFrom_scanned (Container.EnvFrom c)) as H1.
    pose proof (scanEnv_scanned (Container.Env c)) as H2.
    pose proof (scanned_app _ _ _ _ H1 (scanned_app _ _ _ _ H2 IH)) as H3.
    rewrite <- app_assoc.
    destruct (scanEnvFrom change (Container.EnvFrom c)) as [seen1 [|]],
             (scanEnv change (Container.Env c)) as [seen2 [|]],
             (scanContainers change cs) as [seen3 found3]; simpl in *;
      done.
Qed.

Lemma scanned_prefix all r : scanned change all r → r.1 `prefix_of` all.
Proof.
  unfold scanned. destruct r as [seen [|]]; simpl.
  - intros (before & x & rest & -> & -> & _). exists rest.
    by rewrite <- app_assoc.
  - intros [-> _]. done.
Qed.

Lemma scanned_found all r :
  scanned change all r → r.2 = true ↔ Exists (refersTo change) all.
Proof.
  unfold scanned. destruct r as [seen [|]]; simpl.
  - intros (before & x & rest & -> & -> & Hx & _). split; [|done].
    intros _. apply Exists_app. right. by constructor.
  - intros [-> Hall]. split; [done|]. intros Hex.
    apply Exists_exists in Hex as (x & Hin & Hx).
    rewrite Forall_forall in Hall. by destruct (Hall x Hin).
Qed.

Lemma scanDeployment_dependsOn deployment :
  (scanDeployment change deployment).2 = true ↔ dependsOn change deployment.
Proof. apply scanned_found, scanContainers_scanned. Qed.

(** The loop queues the dependent workloads, each once, in the order
    of the listing. *)
Lemma deploymentLoop_filter now delay items updateTimers :
  deploymentLoop now delay change items updateTimers =
    foldl (λ s d, queueDeployment now delay d s) updateTimers
          (filter (dependsOn change) items).
Proof.
  revert updateTimers. induction items as [|d items IH]; intros s; [done|].
  simpl. pose proof (scanDeployment_dependsOn d) as Hd.
  destruct (decide (dependsOn change d)) as [Hdep|Hdep].
  - rewrite filter_cons_True by done.
    rewrite (proj2 Hd Hdep). simpl. apply IH.
  - rewrite filter_cons_False by done.
    destruct ((scanDeployment change d).2); [|apply IH].
    destruct Hdep. by apply Hd.
Qed.
End ScanFacts.

(** ** The change debouncer *)

(** C1.  A burst of notifications of one descriptor [d], at strictly
    increasing instants less than [delay] apart, leads to exactly one
    invocation of the dependency scan for [d], at the instant of the
    last notification plus [delay].  The notifications of another
    descriptor change neither the invocations for [d] nor its
    countdown. *)
Theorem burst_settles_once (delay : Z) (evs : list (Z * ChangeType.t))
    (d : ChangeType.t) (tN T : Z) :
  0 ≤ delay →
  chronological evs →
  Forall (λ e, e.1 ≤ T) evs →
  burst delay (timesOf d evs) →
  last (timesOf d evs) = Some tN →
  tN + delay ≤ T →
  callsFor d (settledChanges delay evs T) = [(tN + delay, d)] ∧
  (∀ d', d' ≠ d →
     callsFor d (settledChanges delay (filter (λ e, e.2 ≠ d') evs) T) =
     callsFor d (settledChanges delay evs T)) ∧
  (∀ d' now s, d' ≠ d → consistent s →
     deadline (delayedUpdate now delay d' s) d = deadline s d).
Proof.
  intros Hd Hsorted HT Hb Hlast HN. split; [|split].
  - by apply simulate_burst.
  - intros d' Hne. by apply simulate_other_key.
  - intros d' now s Hne Hc. unfold delayedUpdate.
    rewrite deadline_debounce by done. by rewrite decide_False by congruence.
Qed.

Lemma burst_settles_once_witness :
  callsFor cfgA
    (settledChanges 5 [(0, cfgA); (1, secB); (2, cfgA); (4, secB)] 20)
  = [(7, cfgA)].
Proof.
  apply (burst_settles_once 5 [(0, cfgA); (1, secB); (2, cfgA); (4, secB)]
           cfgA 2 20).
  - lia.
  - repeat constructor; simpl; lia.
  - repeat constructor; simpl; lia.
  - vm_compute. done.
  - reflexivity.
  - lia.
Defined.

(** C2.  A call of [delayedUpdate] for a descriptor whose entry holds a
    live timer re-arms that timer for [delay] from now and leaves the
    map and every other timer as they are.  Otherwise it makes one new
    timer armed for [delay] from now and stores it under the
    descriptor; left alone, that timer ends at its instant, the entry is
    then gone and the settled-change handler has been invoked once for
    the descriptor, and not before. *)
Theorem delayedUpdate_resets_or_starts (now delay : Z) (desc : ChangeType.t)
    (s : Timers ChangeType.t) :
  let s' := delayedUpdate now delay desc s in
  (∀ timer, table s !! desc = Some timer → live s timer desc →
     table s' = table s ∧
     heap s' !! timer = Some (mkTimer desc (Some (expiry now delay))) ∧
     (∀ j, j ≠ timer → heap s' !! j = heap s !! j) ∧
     length (heap s') = length (heap s) ∧
     logs s' = logs s ++ [sawChangeResetting desc]) ∧
  (consistent s →
   (¬ ∃ timer, table s !! desc = Some timer ∧ live s timer desc) →
     table s' = <[desc := length (heap s)]> (table s) ∧
     heap s' = heap s ++ [mkTimer desc (Some (expiry now delay))] ∧
     logs s' = logs s ++ [sawChangeStarting desc] ∧
     ∀ T out,
       (expiry now delay ≤ T →
          table (runTimers T s' out).1 !! desc = None ∧
          callsFor desc (runTimers T s' out).2 =
            callsFor desc out ++ [(expiry now delay, desc)]) ∧
       (T < expiry now delay →
          deadline (runTimers T s' out).1 desc = Some (expiry now delay) ∧
          callsFor desc (runTimers T s' out).2 = callsFor desc out)).
Proof.
  simpl. split.
  - intros timer Hk Hlive. by apply debounce_reset.
  - intros Hc Hno.
    destruct (debounce_start sawChangeResetting sawChangeStarting
                now delay desc s Hc Hno) as (Ht & Hh & Hl).
    do 3 (split; [done|]).
    intros T out. apply runTimers_expiry.
    + by apply consistent_debounce.
    + unfold delayedUpdate. rewrite deadline_debounce by done.
      by rewrite decide_True.
Qed.

Lemma delayedUpdate_resets_or_starts_witness :
  heap (delayedUpdate 3 5 cfgA (delayedUpdate 0 5 cfgA noTimers)) !! 0%nat
    = Some (mkTimer cfgA (Some 8)) ∧
  callsFor secB
    (runTimers 20 (delayedUpdate 3 5 secB (delayedUpdate 0 5 cfgA noTimers)) []).2
    = [(8, secB)].
Proof.
  assert (consistent (delayedUpdate 0 5 cfgA noTimers)) as Hc.
  { apply consistent_debounce, consistent_noTimers. }
  split.
  - apply (delayedUpdate_resets_or_starts 3 5 cfgA
             (delayedUpdate 0 5 cfgA noTimers)).
    + reflexivity.
    + exists 5. reflexivity.
  - apply (proj2 (delayedUpdate_resets_or_starts 3 5 secB
                    (delayedUpdate 0 5 cfgA noTimers)) Hc).
    + intros (timer & Ht & _). vm_compute in Ht. discriminate.
    + vm_compute. discriminate.
Defined.

(** ** Goroutines and the timer maps *)

Lemma delayedUpdate_serial now delay change s :
  delayedUpdate now delay change s =
    serialStep sawChangeResetting sawChangeStarting delay (Notify now change) s.
Proof. done. Qed.

Lemma queueDeployment_debounce now delay deployment s :
  queueDeployment now delay deployment s =
    debounce resettingQueuedUpdate queuingUpdate now delay (depKey deployment) s.
Proof.
  unfold queueDeployment, debounce, lookupTimer.
  by destruct (table s !! _).
Qed.

Lemma queueDeployment_serial now delay deployment s :
  queueDeployment now delay deployment s =
    serialStep resettingQueuedUpdate queuingUpdate delay
      (Notify now (depKey deployment)) s.
Proof. apply queueDeployment_debounce. Qed.

(** C3, as the code has it.  The program takes no lock.  When the calls
    of the two debouncers and the expiries of their timers run one at a
    time, each to its end, no key ever has two live timers, in
    [changeTimers] and in [updateTimers] alike. *)
Theorem serial_runs_keep_one_timer_per_key (delay : Z) :
  (∀ acts : list (Serial ChangeType.t),
     atMostOneLiveTimerPerKey
       (serially sawChangeResetting sawChangeStarting delay acts noTimers)) ∧
  (∀ acts : list (Serial Deployment.t),
     atMostOneLiveTimerPerKey
       (serially resettingQueuedUpdate queuingUpdate delay acts noTimers)).
Proof.
  split; intros acts; apply consistent_atMostOne, consistent_serially,
    consistent_noTimers.
Qed.

(** C3, as it is stated, fails: two goroutines that enter
    [queueDeployment] with the same workload and both read the map
    before either writes it leave two live timers under one key. *)
Lemma overlapping_calls_start_two_timers :
  ¬ atMostOneLiveTimerPerKey
      (timers
         (schedule resettingQueuedUpdate queuingUpdate 5
            [Call (depKey web); Call (depKey web);
             Step 0%nat; Step 1%nat; Step 0%nat; Step 1%nat]
            startProcess)).
Proof.
  intros Hone.
  specialize (Hone (depKey web) 0%nat 1%nat).
  assert (0%nat = 1%nat) as Heq; [|discriminate Heq].
  apply Hone; exists 5; reflexivity.
Qed.

(** The other race: a notification that has read the entry of a timer
    re-arms it after its closure has deleted the entry.  The timer then
    counts down with no entry, and the next notification starts a second
    one. *)
Lemma reset_racing_expiry_leaves_two_timers :
  let p :=
    schedule sawChangeResetting sawChangeStarting 5
      [Call cfgA; Step 0%nat; Step 0%nat;
       Tick 5; Call cfgA; Step 1%nat;
       Expire 0%nat; Step 2%nat;
       Step 1%nat;
       Call cfgA; Step 3%nat; Step 3%nat]
      startProcess in
  heap (timers p) = [mkTimer cfgA (Some 10); mkTimer cfgA (Some 10)] ∧
  table (timers p) !! cfgA = Some 1%nat ∧
  invoked p = [(5, cfgA)].
Proof. vm_compute. done. Qed.

(** ** The update debouncer *)

Lemma depKey_eq (a b : apps.Deployment) :
  depKey a = depKey b ↔
  ObjectMeta.Name (apps.ObjectMeta a) = ObjectMeta.Name (apps.ObjectMeta b) ∧
  ObjectMeta.ResourceVersion (apps.ObjectMeta a) =
    ObjectMeta.ResourceVersion (apps.ObjectMeta b).
Proof.
  unfold depKey. split.
  - by intros [= -> ->].
  - by intros [-> ->].
Qed.

(** C6.  [queueDeployment] debounces under the pair made of the name and
    the resource version of the workload.  A call whose pair has a live
    entry re-arms that timer for [delay] from now.  A call whose pair
    has none starts a timer of its own, which leaves the countdown of
    every other pair, one of the same name with another version
    included, as it is: both end at their own instants.  At its instant
    the entry is gone and [patchDeployment] has been invoked once for
    the pair. *)
Theorem queueDeployment_keys_by_name_and_version (now delay : Z)
    (deployment : apps.Deployment) (s : Timers Deployment.t) :
  let dep := depKey deployment in
  let s' := queueDeployment now delay deployment s in
  (Deployment.Name dep = ObjectMeta.Name (apps.ObjectMeta deployment) ∧
   meta.ResourceVersion (Deployment.Options dep) =
     ObjectMeta.ResourceVersion (apps.ObjectMeta deployment)) ∧
  (∀ other, depKey other = dep ↔
     ObjectMeta.Name (apps.ObjectMeta other) =
       ObjectMeta.Name (apps.ObjectMeta deployment) ∧
     ObjectMeta.ResourceVersion (apps.ObjectMeta other) =
       ObjectMeta.ResourceVersion (apps.ObjectMeta deployment)) ∧
  (∀ timer, table s !! dep = Some timer → live s timer dep →
     table s' = table s ∧
     heap s' !! timer = Some (mkTimer dep (Some (expiry now delay))) ∧
     (∀ j, j ≠ timer → heap s' !! j = heap s !! j) ∧
     length (heap s') = length (heap s)) ∧
  (consistent s →
   (¬ ∃ timer, table s !! dep = Some timer ∧ live s timer dep) →
     table s' = <[dep := length (heap s)]> (table s) ∧
     heap s' = heap s ++ [mkTimer dep (Some (expiry now delay))] ∧
     (∀ stale w T out,
        stale ≠ dep → deadline s stale = Some w → w ≤ T →
        deadline s' stale = Some w ∧
        callsFor stale (runTimers T s' out).2 = callsFor stale out ++ [(w, stale)]) ∧
     (∀ T out, expiry now delay ≤ T →
        table (runTimers T s' out).1 !! dep = None ∧
        callsFor dep (runTimers T s' out).2 =
          callsFor dep out ++ [(expiry now delay, dep)])).
Proof.
  simpl. rewrite queueDeployment_debounce.
  split; [done|]. split; [intros other; apply depKey_eq|]. split.
  - intros timer Hk Hlive.
    destruct (debounce_reset resettingQueuedUpdate queuingUpdate
                now delay _ s timer Hk Hlive) as (? & ? & ? & ? & ?).
    done.
  - intros Hc Hno.
    assert (consistent (debounce resettingQueuedUpdate queuingUpdate now delay
                          (depKey deployment) s)) as Hc'
      by (by apply consistent_debounce).
    destruct (debounce_start resettingQueuedUpdate queuingUpdate
                now delay _ s Hc Hno) as (Ht & Hh & Hl).
    do 2 (split; [done|]). split.
    + intros stale w T out Hne Hd HT.
      assert (deadline (debounce resettingQueuedUpdate queuingUpdate now delay
                          (depKey deployment) s) stale = Some w) as Hd'.
      { rewrite deadline_debounce by done. by rewrite decide_False. }
      split; [done|]. by apply runTimers_expiry.
    + intros T out HT. apply runTimers_expiry; [done| |done].
      rewrite deadline_debounce by done. by rewrite decide_True.
Qed.

Lemma queueDeployment_keys_by_name_and_version_witness :
  let s := queueDeployment 0 5 web noTimers in
  let web' := workload "web" "42" [] [importing "cfg-a"] in
  heap (queueDeployment 3 5 web s) !! 0%nat = Some (mkTimer (depKey web) (Some 8)) ∧
  callsFor (depKey web) (runTimers 20 (queueDeployment 3 5 web' s) []).2
    = [(5, depKey web)] ∧
  callsFor (depKey web') (runTimers 20 (queueDeployment 3 5 web' s) []).2
    = [(8, depKey web')].
Proof.
  intros s web'.
  assert (consistent s) as Hc.
  { unfold s. rewrite queueDeployment_debounce.
    apply consistent_debounce, consistent_noTimers. }
  assert (¬ ∃ timer, table s !! depKey web' = Some timer ∧ live s timer (depKey web'))
    as Hno.
  { intros (timer & Ht & _). vm_compute in Ht. discriminate. }
  destruct (queueDeployment_keys_by_name_and_version 3 5 web s)
    as (_ & _ & Hreset & _).
  destruct (queueDeployment_keys_by_name_and_version 3 5 web' s)
    as (_ & _ & _ & Hstart).
  destruct (Hstart Hc Hno) as (_ & _ & Hstale & Hown).
  split; [|split].
  - apply (Hreset 0%nat); [reflexivity|]. exists 5. reflexivity.
  - apply (Hstale (depKey web) 5 20 []).
    + discriminate.
    + reflexivity.
    + lia.
  - apply (Hown 20 []). vm_compute. discriminate.
Defined.

(** ** The dependency resolver *)

(** C4, as the code has it.  When the listing fails,
    [findAndQueueDeployments] panics with the error: nothing is logged
    by the function, no workload is queued, and the closure of the timer
    that called it ends the process, so that nothing the process would
    have gone on to do is done.  When the listing succeeds the function
    returns. *)
Theorem list_failure_panics (now delay : Z) (change : ChangeType.t) (m : Maps) :
  (∀ err,
     findAndQueueDeployments now delay change (Err err) (updateTimers m) =
       Panicked (PanicError err)) ∧
  (∀ err, changeTimerFunc now delay change (Err err) m = Panicked (PanicError err)) ∧
  (∀ err (next : Maps → Outcome Maps),
     andThen (changeTimerFunc now delay change (Err err) m) next =
       Panicked (PanicError err)) ∧
  (∀ items, ∃ updateTimers',
     findAndQueueDeployments now delay change (Ok items) (updateTimers m) =
       Returned updateTimers' ∧
     changeTimerFunc now delay change (Ok items) m =
       Returned (mkMaps (deleteEntry change (changeTimers m)) updateTimers')).
Proof.
  split; [done|]. split; [done|]. split; [done|].
  intros items. eexists. split; reflexivity.
Qed.

(** C4, as it is stated, fails: after a failed listing the function does
    not return, so the process is not there for the next change. *)
Lemma list_failure_does_not_return :
  ¬ ∃ updateTimers',
      findAndQueueDeployments 0 5 cfgA (Err "connection refused") noTimers =
        Returned updateTimers'.
Proof. intros [s' Hs']. discriminate Hs'. Qed.

(** C5.  For a settled change and a listed workload, the scan goes
    through the sources of the main containers in their order, the
    whole-bundle imports of a container before its single-key
    references; it stops at the first source that has a reference of
    the kind and the name of the change, and finds one exactly when
    there is one.  The workloads that have one are queued, each once, in
    the order of the listing, and no other workload is. *)
Theorem scan_queues_each_dependent_workload_once (now delay : Z)
    (change : ChangeType.t) (items : list apps.Deployment)
    (updateTimers : Timers Deployment.t) :
  (∀ deployment,
     let r := scanDeployment change deployment in
     let all := sourcesOf (mainContainers deployment) in
     r.1 `prefix_of` all ∧
     (r.2 = true ↔ dependsOn change deployment) ∧
     (r.2 = true →
        ∃ before src,
          r.1 = before ++ [src] ∧ refersTo change src ∧
          Forall (λ x, ¬ refersTo change x) before) ∧
     (r.2 = false → r.1 = all)) ∧
  (∀ src,
     refersTo change src ↔
     ∃ ref, ref ∈ references src ∧
            ref.1 = ChangeType.Type_ change ∧ ref.2 = ChangeType.Name change) ∧
  findAndQueueDeployments now delay change (Ok items) updateTimers =
    Returned
      (foldl (λ s d, queueDeployment now delay d s) updateTimers
         (filter (dependsOn change) items)).
Proof.
  split; [|split].
  - intros deployment. simpl.
    assert (scanned change (sourcesOf (mainContainers deployment))
              (scanDeployment change deployment)) as Hs
      by apply scanContainers_scanned.
    split; [by eapply scanned_prefix|].
    split; [apply scanDeployment_dependsOn|].
    unfold scanned in Hs.
    destruct (scanDeployment change deployment) as [seen [|]]; simpl in *.
    + destruct Hs as (before & src & rest & _ & -> & Hsrc & Hbefore).
      split; [|done]. intros _. by exists before, src.
    + destruct Hs as [-> _]. by split.
  - intros src. unfold refersTo. split.
    + intros Hin. by eexists.
    + intros ([ty nm] & Hin & <- & <-). by destruct change.
  - simpl. by rewrite deploymentLoop_filter.
Qed.

Lemma scan_queues_each_dependent_workload_once_witness :
  (scanDeployment cfgA web).2 = true ∧
  (scanDeployment (ChangeType.mk "ConfigMap" "cfg-a-2") web).2 = false ∧
  (scanDeployment (ChangeType.mk "Secret" "cfg-a") web).2 = false ∧
  findAndQueueDeployments 0 5 cfgA (Ok [migrate; web; migrate]) noTimers =
    Returned (queueDeployment 0 5 web noTimers).
Proof.
  destruct (scan_queues_each_dependent_workload_once 0 5 cfgA
              [migrate; web; migrate] noTimers) as (Hscan & _ & Hqueue).
  destruct (Hscan web) as (_ & Hfound & _).
  destruct (scan_queues_each_dependent_workload_once 0 5
              (ChangeType.mk "ConfigMap" "cfg-a-2") [] noTimers) as (Hscan2 & _).
  destruct (Hscan2 web) as (_ & Hfound2 & _).
  destruct (scan_queues_each_dependent_workload_once 0 5
              (ChangeType.mk "Secret" "cfg-a") [] noTimers) as (Hscan3 & _).
  destruct (Hscan3 web) as (_ & Hfound3 & _).
  split; [|split; [|split]].
  - apply Hfound. apply (bool_decide_unpack _). vm_compute. exact I.
  - apply not_true_is_false. intros Hr. apply Hfound2 in Hr.
    revert Hr. apply (bool_decide_unpack (¬ _)). vm_compute. exact I.
  - apply not_true_is_false. intros Hr. apply Hfound3 in Hr.
    revert Hr. apply (bool_decide_unpack (¬ _)). vm_compute. exact I.
  - exact Hqueue.
Defined.

(** C10.  The scan ranges over the main containers only.  A workload
    whose references to the change are all in init containers is not
    found and not queued: the outcome is the one of a listing without
    it, and the scan of a workload does not depend on its init
    containers at all. *)
Theorem init_containers_are_not_scanned (now delay : Z) (change : ChangeType.t)
    (deployment : apps.Deployment) (updateTimers : Timers Deployment.t) :
  Exists (refersTo change) (sourcesOf (initContainers deployment)) →
  ¬ dependsOn change deployment →
  (scanDeployment change deployment).2 = false ∧
  (∀ l1 l2,
     findAndQueueDeployments now delay change (Ok (l1 ++ deployment :: l2))
       updateTimers =
     findAndQueueDeployments now delay change (Ok (l1 ++ l2)) updateTimers) ∧
  (∀ inits,
     scanDeployment change (withInitContainers inits deployment) =
     scanDeployment change deployment).
Proof.
  intros _ Hno. split; [|split].
  - apply not_true_is_false. intros Hr. by apply Hno, scanDeployment_dependsOn.
  - intros l1 l2. simpl. rewrite !deploymentLoop_filter, !filter_app.
    by rewrite filter_cons_False.
  - done.
Qed.

Lemma init_containers_are_not_scanned_witness :
  (scanDeployment cfgA migrate).2 = false ∧
  findAndQueueDeployments 0 5 cfgA (Ok [migrate]) noTimers = Returned noTimers.
Proof.
  assert (Exists (refersTo cfgA) (sourcesOf (initContainers migrate))) as Hinit.
  { apply (bool_decide_unpack _). vm_compute. exact I. }
  assert (¬ dependsOn cfgA migrate) as Hmain.
  { apply (bool_decide_unpack (¬ _)). vm_compute. exact I. }
  destruct (init_containers_are_not_scanned 0 5 cfgA migrate noTimers Hinit Hmain)
    as (Hscan & Hlist & _).
  split; [exact Hscan|]. exact (Hlist [] []).
Defined.

(** ** The patch applier *)

Lemma touch_eq now dep :
  touch now dep =
    setTemplateAnnotations
      (Some (<[lastUpdate := now]> (default ∅ (templateAnnotations dep))))
      (setAnnotations
         (Some (<[lastUpdate := now]> (default ∅ (topAnnotations dep)))) dep).
Proof.
  destruct dep as [[n ns rv l [a|]] [r [[n' ns' rv' l' [a'|]] ps]]]; reflexivity.
Qed.

Lemma touch_name now dep :
  ObjectMeta.Name (apps.ObjectMeta (touch now dep)) =
  ObjectMeta.Name (apps.ObjectMeta dep).
Proof. by rewrite touch_eq. Qed.

Lemma touch_touch now now' dep : touch now' (touch now dep) = touch now' dep.
Proof.
  rewrite !touch_eq.
  unfold setTemplateAnnotations, setAnnotations, topAnnotations,
    templateAnnotations. simpl.
  by rewrite !insert_insert_eq.
Qed.

Lemma marshalMeta_annotated now (m : ObjectMeta.t) path :
  marshalMeta
    (ObjectMeta.mk (ObjectMeta.Name m) (ObjectMeta.Namespace m)
       (ObjectMeta.ResourceVersion m) (ObjectMeta.Labels m)
       (Some (<[lastUpdate := now]> (default ∅ (ObjectMeta.Annotations m)))))
    path =
  if decide (path = ["annotations"; lastUpdate]) then Some (VString now)
  else marshalMeta m path.
Proof.
  destruct (decide (path = ["annotations"; lastUpdate])) as [->|Hne].
  - simpl. by rewrite lookup_insert_eq.
  - destruct path as [|f1 [|f2 [|f3 rest]]]; try done. simpl.
    destruct (decide (f1 = "labels")) as [->|Hl]; [done|].
    destruct (decide (f1 = "annotations")) as [->|Ha]; [|done].
    rewrite lookup_insert_ne; [done|]. congruence.
Qed.

(** The serialized target is the serialized baseline but for the two
    places of the timestamp. *)
Lemma marshal_touch now dep path :
  marshal (touch now dep) path =
    if decide (path = topPath ∨ path = templatePath) then Some (VString now)
    else marshal dep path.
Proof.
  rewrite touch_eq. unfold marshal, topPath, templatePath.
  destruct path as [|f1 rest]; [by rewrite (decide_False (P := _ ∨ _)) by (intros [?|?]; done)|].
  destruct (decide (f1 = "metadata")) as [->|Hm].
  - simpl. rewrite (marshalMeta_annotated now (apps.ObjectMeta dep)).
    destruct (decide (rest = ["annotations"; lastUpdate])) as [->|Hr].
    + rewrite (decide_True (P := _ ∨ _)); [done|]. by left.
    + rewrite (decide_False (P := _ ∨ _)); [done|]. intros [?|?]; congruence.
  - destruct (decide (f1 = "spec")) as [->|Hs].
    2:{ rewrite (decide_False (P := _ ∨ _)); [done|]. intros [?|?]; congruence. }
    unfold marshalSpec. destruct rest as [|f2 rest].
    { by rewrite (decide_False (P := _ ∨ _)) by (intros [?|?]; done). }
    destruct (decide (f2 = "replicas")) as [->|Hrep].
    { rewrite (decide_False (P := _ ∨ _)); [done|]. intros [?|?]; done. }
    destruct (decide (f2 = "template")) as [->|Ht].
    2:{ rewrite (decide_False (P := _ ∨ _)); [done|]. intros [?|?]; congruence. }
    unfold marshalTemplate. destruct rest as [|f3 rest].
    { by rewrite (decide_False (P := _ ∨ _)) by (intros [?|?]; done). }
    destruct (decide (f3 = "metadata")) as [->|Hmeta].
    + simpl.
      rewrite (marshalMeta_annotated now
                 (PodTemplateSpec.ObjectMeta
                    (DeploymentSpec.Template (apps.Spec dep)))).
      destruct (decide (rest = ["annotations"; lastUpdate])) as [->|Hr].
      * rewrite (decide_True (P := _ ∨ _)); [done|]. by right.
      * rewrite (decide_False (P := _ ∨ _)); [done|]. intros [?|?]; congruence.
    + rewrite (decide_False (P := _ ∨ _)); [reflexivity|]. intros [?|?]; congruence.
Qed.

(** The patch says something of the two places of the timestamp only,
    and there sets the new timestamp unless it is the old one. *)
Lemma patch_of_touch now dep path :
  twoWayMergePatch (marshal dep) (marshal (touch now dep)) path =
    if decide (path = topPath ∨ path = templatePath) then
      if decide (marshal dep path = Some (VString now)) then None
      else Some (VString now)
    else None.
Proof.
  unfold twoWayMergePatch. rewrite marshal_touch.
  case_decide as Hp; [done|].
  destruct (marshal dep path) as [v|]; [|done].
  by rewrite decide_True.
Qed.

(** C7.  The object serialized as the target of the patch is the fetched
    object with [now] stored under the timestamp annotation of its own
    metadata and of the metadata of its pod template, the map being made
    when it is nil; every other field is the one of the baseline.  The
    serialized target therefore differs from the serialized baseline at
    the two places of the timestamp at most, the two-way merge patch
    computed from them says nothing of any other place, and applied to
    any document it leaves every other place as it is; that patch is
    what [patchDeployment] submits.  Touching an object that has been
    touched before changes the value of the timestamp and nothing
    else. *)
Theorem patch_alters_only_the_timestamp (now now' : string)
    (dep : apps.Deployment) :
  let target := touch now dep in
  let patch := twoWayMergePatch (marshal dep) (marshal target) in
  let objectMeta := apps.ObjectMeta in
  let templateMeta :=
    λ d, PodTemplateSpec.ObjectMeta (DeploymentSpec.Template (apps.Spec d)) in
  (ObjectMeta.Name (objectMeta target) = ObjectMeta.Name (objectMeta dep) ∧
   ObjectMeta.Namespace (objectMeta target) = ObjectMeta.Namespace (objectMeta dep) ∧
   ObjectMeta.ResourceVersion (objectMeta target) = ObjectMeta.ResourceVersion (objectMeta dep) ∧
   ObjectMeta.Labels (objectMeta target) = ObjectMeta.Labels (objectMeta dep) ∧
   DeploymentSpec.Replicas (apps.Spec target) = DeploymentSpec.Replicas (apps.Spec dep) ∧
   ObjectMeta.Name (templateMeta target) = ObjectMeta.Name (templateMeta dep) ∧
   ObjectMeta.Namespace (templateMeta target) = ObjectMeta.Namespace (templateMeta dep) ∧
   ObjectMeta.ResourceVersion (templateMeta target) = ObjectMeta.ResourceVersion (templateMeta dep) ∧
   ObjectMeta.Labels (templateMeta target) = ObjectMeta.Labels (templateMeta dep) ∧
   PodTemplateSpec.Spec (DeploymentSpec.Template (apps.Spec target)) =
     PodTemplateSpec.Spec (DeploymentSpec.Template (apps.Spec dep))) ∧
  topAnnotations target =
    Some (<[lastUpdate := now]> (default ∅ (topAnnotations dep))) ∧
  templateAnnotations target =
    Some (<[lastUpdate := now]> (default ∅ (templateAnnotations dep))) ∧
  (∀ path,
     marshal target path =
       if decide (path = topPath ∨ path = templatePath) then Some (VString now)
       else marshal dep path) ∧
  (∀ path,
     patch path =
       if decide (path = topPath ∨ path = templatePath) then
         if decide (marshal dep path = Some (VString now)) then None
         else Some (VString now)
       else None) ∧
  (∀ doc path, path ≠ topPath → path ≠ templatePath →
     applyMergePatch patch doc path = doc path) ∧
  (∀ path, applyMergePatch patch (marshal dep) path = marshal target path) ∧
  touch now' target = touch now' dep ∧
  (∀ Get (Patch : string → MergePatch → Result apps.Deployment)
     formatRFC3339 clock deployment,
     Get (Deployment.Name deployment) (Deployment.Options deployment) = Ok dep →
     formatRFC3339 clock = now →
     patchDeployment Get Patch (λ d, Ok (marshal d))
       (λ current updated, Ok (twoWayMergePatch current updated))
       formatRFC3339 clock deployment !! 4%nat =
       Some (CallPatch (ObjectMeta.Name (objectMeta dep)) patch)) ∧
  (∀ (Get : string → meta.GetOptions → Result apps.Deployment)
     (Patch : string → string → Result apps.Deployment)
     jsonMarshal CreateTwoWayMergePatch formatRFC3339 clock
     deployment current updated,
     Get (Deployment.Name deployment) (Deployment.Options deployment) = Ok dep →
     formatRFC3339 clock = now →
     jsonMarshal dep = Ok current →
     jsonMarshal target = Ok updated →
     CallCreateTwoWayMergePatch current updated ∈
       patchDeployment Get Patch jsonMarshal CreateTwoWayMergePatch
         formatRFC3339 clock deployment).
Proof.
  cbv zeta. split.
  { rewrite touch_eq. by repeat split. }
  split; [by rewrite touch_eq|]. split; [by rewrite touch_eq|].
  split; [apply marshal_touch|]. split; [apply patch_of_touch|].
  split.
  { intros doc path Htop Htpl. unfold applyMergePatch.
    rewrite patch_of_touch, decide_False; [done|]. by intros [?|?]. }
  split.
  { intros path. unfold applyMergePatch.
    rewrite patch_of_touch, marshal_touch.
    case_decide as Hp; [|done]. by case_decide. }
  split; [apply touch_touch|]. split.
  - intros Get Patch format clock deployment HGet Hnow.
    unfold patchDeployment. rewrite HGet, Hnow. cbn [lookup list_lookup].
    by rewrite touch_name.
  - intros Get Patch jsonMarshal Create format clock deployment current updated
      HGet Hnow Hcur Hupd.
    unfold patchDeployment. rewrite HGet, Hcur, Hnow, Hupd.
    do 3 apply list_elem_of_further. apply list_elem_of_here.
Qed.

Lemma patch_alters_only_the_timestamp_witness :
  let patch := twoWayMergePatch (marshal web) (marshal (touch (stamp 0) web)) in
  patch topPath = Some (VString (stamp 0)) ∧
  patch templatePath = Some (VString (stamp 0)) ∧
  patch ["spec"; "replicas"] = None ∧
  patch ["spec"; "template"; "spec"; "containers"] = None ∧
  applyMergePatch patch (marshal web) ["spec"; "replicas"] = Some (VNumber 1) ∧
  patchDeployment serving acceptingPatch (λ d, Ok (marshal d))
    (λ current updated, Ok (twoWayMergePatch current updated)) stamp 0
    (depKey web) !! 4%nat = Some (CallPatch "web" patch).
Proof.
  destruct (patch_alters_only_the_timestamp (stamp 0) (stamp 1) web)
    as (_ & _ & _ & _ & Hpatch & Hframe & _ & _ & Hsent & _).
  cbv zeta. rewrite !Hpatch.
  split; [reflexivity|]. split; [reflexivity|]. split; [reflexivity|].
  split; [reflexivity|]. split.
  - rewrite Hframe by discriminate. reflexivity.
  - apply (Hsent serving acceptingPatch stamp 0 (depKey web)); reflexivity.
Defined.

(** C8.  [patchDeployment] always returns.  Whichever of its calls fails
    first (the fetch, the serialization of the baseline, that of the
    target, the computation of the patch, its submission), the only thing
    that follows is one log line with the error and a name of the
    workload: nothing is retried and the later steps are not taken.  A
    patch is submitted only after all the steps before it have
    succeeded. *)
Theorem patchDeployment_abandons_at_first_failure
    (Get : string → meta.GetOptions → Result apps.Deployment)
    (Patch : string → string → Result apps.Deployment)
    (jsonMarshal : apps.Deployment → Result string)
    (CreateTwoWayMergePatch : string → string → Result string)
    (formatRFC3339 : Z → string) (clock : Z) (deployment : Deployment.t) :
  let name := Deployment.Name deployment in
  let options := Deployment.Options deployment in
  let trace :=
    patchDeployment Get Patch jsonMarshal CreateTwoWayMergePatch
      formatRFC3339 clock deployment in
  (∀ err, Get name options = Err err →
     trace = [CallGet name options; Log (ErrorRetrieving name err)]) ∧
  (∀ dep, Get name options = Ok dep →
     let fetched := ObjectMeta.Name (apps.ObjectMeta dep) in
     let target := touch (formatRFC3339 clock) dep in
     (∀ err, jsonMarshal dep = Err err →
        trace = [CallGet name options; CallMarshal dep;
                 Log (ErrorMarshaling fetched err)]) ∧
     (∀ current, jsonMarshal dep = Ok current →
        (∀ err, jsonMarshal target = Err err →
           trace = [CallGet name options; CallMarshal dep; CallMarshal target;
                    Log (ErrorMarshaling fetched err)]) ∧
        (∀ updated, jsonMarshal target = Ok updated →
           (∀ err, CreateTwoWayMergePatch current updated = Err err →
              trace = [CallGet name options; CallMarshal dep; CallMarshal target;
                       CallCreateTwoWayMergePatch current updated;
                       Log (ErrorGeneratingPatch fetched err)]) ∧
           (∀ patch, CreateTwoWayMergePatch current updated = Ok patch →
              (∀ err, Patch fetched patch = Err err →
                 trace = [CallGet name options; CallMarshal dep;
                          CallMarshal target;
                          CallCreateTwoWayMergePatch current updated;
                          CallPatch fetched patch;
                          Log (ErrorPatching fetched err)]) ∧
              (∀ result, Patch fetched patch = Ok result →
                 trace = [CallGet name options; CallMarshal dep;
                          CallMarshal target;
                          CallCreateTwoWayMergePatch current updated;
                          CallPatch fetched patch;
                          Log (Patched fetched)])))))  ∧
  (length (filter (λ a, isPatchCall a = true) trace) ≤ 1)%nat ∧
  (length (filter (λ a, isErrorLog a = true) trace) ≤ 1)%nat.
Proof.
  simpl. unfold patchDeployment.
  destruct (Get _ _) as [dep|e1] eqn:HGet;
    [destruct (jsonMarshal dep) as [current|e2] eqn:Hcur;
     [destruct (jsonMarshal (touch _ dep)) as [updated|e3] eqn:Hupd;
      [destruct (CreateTwoWayMergePatch current updated) as [patch|e4] eqn:Hp;
       [destruct (Patch _ patch) as [result|e5] eqn:Hsub|]|]|]|].
  all: rewrite ?touch_name in *.
  all: repeat (first [split | intro]); try congruence; simpl; lia.
Qed.

Lemma patchDeployment_abandons_at_first_failure_witness :
  patchDeployment notFound accepting marshalName concatPatch stamp 0 (depKey web)
    = [CallGet "web" (meta.mkGetOptions "" "" "41");
       Log (ErrorRetrieving "web" "not found")] ∧
  patchDeployment serving accepting marshalFails concatPatch stamp 0 (depKey web)
    = [CallGet "web" (meta.mkGetOptions "" "" "41"); CallMarshal web;
       Log (ErrorMarshaling "web" "unsupported value")] ∧
  patchDeployment serving accepting marshalUntouched concatPatch stamp 0 (depKey web)
    = [CallGet "web" (meta.mkGetOptions "" "" "41"); CallMarshal web;
       CallMarshal (touch (stamp 0) web);
       Log (ErrorMarshaling "web" "unsupported value")] ∧
  patchDeployment serving accepting marshalName patchFails stamp 0 (depKey web)
    = [CallGet "web" (meta.mkGetOptions "" "" "41"); CallMarshal web;
       CallMarshal (touch (stamp 0) web);
       CallCreateTwoWayMergePatch "web" "web";
       Log (ErrorGeneratingPatch "web" "mismatch")] ∧
  patchDeployment serving refusing marshalName concatPatch stamp 0 (depKey web)
    = [CallGet "web" (meta.mkGetOptions "" "" "41"); CallMarshal web;
       CallMarshal (touch (stamp 0) web);
       CallCreateTwoWayMergePatch "web" "web";
       CallPatch "web" "webweb";
       Log (ErrorPatching "web" "conflict")].
Proof.
  split; [|split; [|split; [|split]]].
  - apply (patchDeployment_abandons_at_first_failure
             notFound accepting marshalName concatPatch stamp 0 (depKey web)).
    reflexivity.
  - pose proof (proj1 (proj2 (patchDeployment_abandons_at_first_failure
             serving accepting marshalFails concatPatch stamp 0 (depKey web)))
             web eq_refl) as Hweb.
    cbv zeta in Hweb. destruct Hweb as (Hfail & _).
    exact (Hfail _ eq_refl).
  - pose proof (proj1 (proj2 (patchDeployment_abandons_at_first_failure
             serving accepting marshalUntouched concatPatch stamp 0 (depKey web)))
             web eq_refl) as Hweb.
    cbv zeta in Hweb. destruct Hweb as (_ & Hcur).
    destruct (Hcur "{}" eq_refl) as (Hfail & _).
    exact (Hfail _ eq_refl).
  - pose proof (proj1 (proj2 (patchDeployment_abandons_at_first_failure
             serving accepting marshalName patchFails stamp 0 (depKey web)))
             web eq_refl) as Hweb.
    cbv zeta in Hweb. destruct Hweb as (_ & Hcur).
    destruct (Hcur "web" eq_refl) as (_ & Hupd).
    destruct (Hupd "web" eq_refl) as (Hfail & _).
    exact (Hfail _ eq_refl).
  - pose proof (proj1 (proj2 (patchDeployment_abandons_at_first_failure
             serving refusing marshalName concatPatch stamp 0 (depKey web)))
             web eq_refl) as Hweb.
    cbv zeta in Hweb. destruct Hweb as (_ & Hcur).
    destruct (Hcur "web" eq_refl) as (_ & Hupd).
    destruct (Hupd "web" eq_refl) as (_ & Hpatch).
    destruct (Hpatch "webweb" eq_refl) as (Hfail & _).
    exact (Hfail _ eq_refl).
Defined.

(** ** The watch loops *)

Lemma Filter_modified now event evs :
  watch.Type_ event = "MODIFIED" →
  watch.Filter filterFunc ((now, event) :: evs) =
    (now, event) :: watch.Filter filterFunc evs.
Proof.
  intros Hty. unfold watch.Filter. simpl.
  by rewrite bool_decide_eq_true_2.
Qed.

Lemma Filter_other now event evs :
  watch.Type_ event ≠ "MODIFIED" →
  watch.Filter filterFunc ((now, event) :: evs) = watch.Filter filterFunc evs.
Proof.
  intros Hty. unfold watch.Filter. simpl.
  by rewrite bool_decide_eq_false_2.
Qed.

Lemma rangeOver_returns body delay evs changeTimers :
  Forall (λ e, watch.Type_ e.2 = "MODIFIED" →
               ∀ now s, ∃ s', body now delay e.2 s = Returned s') evs →
  ∃ changeTimers',
    rangeOver body delay (watch.Filter filterFunc evs) changeTimers =
      Returned changeTimers'.
Proof.
  revert changeTimers. induction evs as [|[now event] evs IH];
    intros s Hall; [by eexists|].
  apply Forall_cons_1 in Hall as [Hev Hall]. simpl in Hev.
  destruct (decide (watch.Type_ event = "MODIFIED")) as [Hty|Hty].
  - rewrite Filter_modified by done. simpl.
    destruct (Hev Hty now s) as [s' ->]. by apply IH.
  - rewrite Filter_other by done. by apply IH.
Qed.

(** C9.  An event gets through the filter exactly when its type is
    MODIFIED, and the loop body then drops the flag of its type
    assertion.  When the object is a ConfigMap (a Secret, on the other
    stream) its name goes to [delayedUpdate] under the kind of the
    stream; when it is anything else the body dereferences a nil pointer
    and the process ends.  A stream on which every modified event
    carries an object of the watched type never takes that branch. *)
Theorem unasserted_object_ends_the_process (now delay : Z)
    (event : watch.Event) (changeTimers : Timers ChangeType.t) :
  (filterFunc event).2 = true →
  watch.Type_ event = "MODIFIED" ∧
  (∀ evs, watch.Filter filterFunc ((now, event) :: evs) =
            (now, event) :: watch.Filter filterFunc evs) ∧
  (∀ configmap, watch.Object_ event = watch.ConfigMapObject configmap →
     configMapEvent now delay event changeTimers =
       Returned
         (delayedUpdate now delay
            (ChangeType.mk "ConfigMap"
               (ObjectMeta.Name (ConfigMap.ObjectMeta configmap)))
            changeTimers)) ∧
  ((∀ configmap, watch.Object_ event ≠ watch.ConfigMapObject configmap) →
     configMapEvent now delay event changeTimers = Panicked NilPointerDereference ∧
     ∀ evs, watchConfigMaps delay ((now, event) :: evs) changeTimers =
              Panicked NilPointerDereference) ∧
  (∀ secret, watch.Object_ event = watch.SecretObject secret →
     secretEvent now delay event changeTimers =
       Returned
         (delayedUpdate now delay
            (ChangeType.mk "Secret"
               (ObjectMeta.Name (Secret.ObjectMeta secret)))
            changeTimers)) ∧
  ((∀ secret, watch.Object_ event ≠ watch.SecretObject secret) →
     secretEvent now delay event changeTimers = Panicked NilPointerDereference ∧
     ∀ evs, watchSecrets delay ((now, event) :: evs) changeTimers =
              Panicked NilPointerDereference) ∧
  (∀ evs,
     Forall (λ e, watch.Type_ e.2 = "MODIFIED" →
                  ∃ configmap, watch.Object_ e.2 = watch.ConfigMapObject configmap)
            evs →
     ∃ changeTimers',
       watchConfigMaps delay evs changeTimers = Returned changeTimers') ∧
  (∀ evs,
     Forall (λ e, watch.Type_ e.2 = "MODIFIED" →
                  ∃ secret, watch.Object_ e.2 = watch.SecretObject secret)
            evs →
     ∃ changeTimers',
       watchSecrets delay evs changeTimers = Returned changeTimers').
Proof.
  intros Hkeep. simpl in Hkeep. apply bool_decide_eq_true in Hkeep.
  split; [done|]. split; [intros evs; by apply Filter_modified|].
  split; [|split; [|split; [|split; [|split]]]].
  - intros configmap Hobj. unfold configMapEvent. by rewrite Hobj.
  - intros Hother.
    assert (configMapEvent now delay event changeTimers =
              Panicked NilPointerDereference) as Hpanic.
    { unfold configMapEvent. destruct (watch.Object_ event) eqn:Hobj; try done.
      by destruct (Hother configmap). }
    split; [done|]. intros evs. unfold watchConfigMaps.
    rewrite Filter_modified by done. simpl. by rewrite Hpanic.
  - intros secret Hobj. unfold secretEvent. by rewrite Hobj.
  - intros Hother.
    assert (secretEvent now delay event changeTimers =
              Panicked NilPointerDereference) as Hpanic.
    { unfold secretEvent. destruct (watch.Object_ event) eqn:Hobj; try done.
      by destruct (Hother secret). }
    split; [done|]. intros evs. unfold watchSecrets.
    rewrite Filter_modified by done. simpl. by rewrite Hpanic.
  - intros evs Hall. apply rangeOver_returns.
    eapply Forall_impl; [exact Hall|]. intros [t e] He Hty t' s. simpl in *.
    destruct (He Hty) as [configmap Hobj]. unfold configMapEvent.
    rewrite Hobj. by eexists.
  - intros evs Hall. apply rangeOver_returns.
    eapply Forall_impl; [exact Hall|]. intros [t e] He Hty t' s. simpl in *.
    destruct (He Hty) as [secret Hobj]. unfold secretEvent.
    rewrite Hobj. by eexists.
Qed.

Lemma unasserted_object_ends_the_process_witness :
  configMapEvent 0 5 (watch.mkEvent "MODIFIED" (watch.StatusObject "gone")) noTimers
    = Panicked NilPointerDereference ∧
  secretEvent 0 5
    (watch.mkEvent "MODIFIED"
       (watch.ConfigMapObject (ConfigMap.mk (plainMeta "cfg-a" "3") ∅)))
    noTimers
    = Panicked NilPointerDereference ∧
  configMapEvent 0 5
    (watch.mkEvent "MODIFIED"
       (watch.ConfigMapObject (ConfigMap.mk (plainMeta "cfg-a" "3") ∅)))
    noTimers
    = Returned (delayedUpdate 0 5 cfgA noTimers).
Proof.
  split; [|split].
  - apply (unasserted_object_ends_the_process 0 5
             (watch.mkEvent "MODIFIED" (watch.StatusObject "gone")) noTimers
             eq_refl).
    discriminate.
  - apply (unasserted_object_ends_the_process 0 5
             (watch.mkEvent "MODIFIED"
                (watch.ConfigMapObject (ConfigMap.mk (plainMeta "cfg-a" "3") ∅)))
             noTimers eq_refl).
    discriminate.
  - exact (proj1 (proj2 (proj2 (unasserted_object_ends_the_process 0 5
             (watch.mkEvent "MODIFIED"
                (watch.ConfigMapObject (ConfigMap.mk (plainMeta "cfg-a" "3") ∅)))
             noTimers eq_refl)))
             (ConfigMap.mk (plainMeta "cfg-a" "3") ∅) eq_refl).
Defined.

(** * Further properties *)

(** ** The whole course of a debouncer *)

Section DebounceCourse.
Context {K : Type} `{Countable K}.
Variables logReset logStart : K → LogLine.

Lemma expiry_span now delay : expiry now delay = now + Z.max 0 delay.
Proof. done. Qed.

Lemma keyRun_settle (k : K) delay T ts t out :
  (keyAdvance k T
     (keyRun k delay ((λ t, (t, k)) <$> ts) (Some (t + Z.max 0 delay), out))).2 =
  out ++ ((λ t, (t, k)) <$> settlePoints (Z.max 0 delay) (t :: ts) T).
Proof.
  revert t out. induction ts as [|t' ts IH]; intros t out.
  - simpl. unfold keyAdvance. simpl. case_bool_decide; [done|].
    by rewrite app_nil_r.
  - rewrite fmap_cons, keyRun_cons, decide_True by done.
    rewrite expiry_span.
    change (settlePoints (Z.max 0 delay) (t :: t' :: ts) T) with
      (if bool_decide (t + Z.max 0 delay ≤ t')
       then t + Z.max 0 delay :: settlePoints (Z.max 0 delay) (t' :: ts) T
       else settlePoints (Z.max 0 delay) (t' :: ts) T).
    case_bool_decide as Hdue.
    + rewrite keyAdvance_due by done. cbn [snd]. rewrite IH.
      rewrite fmap_cons. by rewrite <- app_assoc.
    + rewrite keyAdvance_later by lia. cbn [snd]. by rewrite IH.
Qed.

(** The invocations for a key are its settle points. *)
Lemma simulate_settlePoints delay evs k T :
  chronological evs → Forall (λ e, e.1 ≤ T) evs →
  callsFor k (simulate logReset logStart delay evs T) =
    (λ t, (t, k)) <$> settlePoints (Z.max 0 delay) (timesOf k evs) T.
Proof.
  intros Hsorted HT. rewrite simulate_key.
  rewrite <- (keyRun_filter k delay (λ e, e.2 = k)) by done.
  rewrite filter_key_times.
  destruct (timesOf k evs) as [|t ts]; [done|].
  rewrite fmap_cons, keyRun_cons, decide_True by done.
  rewrite expiry_span. cbn [snd keyAdvance fst].
  by rewrite keyRun_settle.
Qed.

Lemma timesOf_chronological k (evs : list (Z * K)) :
  chronological evs → StronglySorted Z.le (timesOf k evs).
Proof.
  unfold chronological, timesOf. induction evs as [|[t k'] evs IH]; intros Hs.
  - constructor.
  - apply StronglySorted_inv in Hs as [Hs Hle].
    destruct (decide (k' = k)) as [->|Hne].
    + rewrite filter_cons_True by done. simpl. constructor; [by apply IH|].
      rewrite Forall_fmap. apply Forall_forall. intros [t' k''] Hin.
      apply list_elem_of_filter in Hin as [_ Hin]. simpl.
      rewrite Forall_forall in Hle. by apply (Hle _ Hin).
    + rewrite filter_cons_False by done. by apply IH.
Qed.

Lemma timesOf_bounded k (evs : list (Z * K)) T :
  Forall (λ e, e.1 ≤ T) evs → Forall (λ t, t ≤ T) (timesOf k evs).
Proof.
  unfold timesOf. intros HT. rewrite Forall_fmap.
  apply Forall_forall. intros e Hin.
  apply list_elem_of_filter in Hin as [_ Hin].
  rewrite Forall_forall in HT. by apply HT.
Qed.

Lemma settlePoints_zero ts T :
  StronglySorted Z.le ts → Forall (λ t, t ≤ T) ts →
  settlePoints 0 ts T = ts.
Proof.
  induction ts as [|t ts IH]; intros Hs HT; [done|].
  apply StronglySorted_inv in Hs as [Hs Hle].
  apply Forall_cons_1 in HT as [Ht HT].
  destruct ts as [|t' ts].
  - simpl. rewrite bool_decide_eq_true_2 by lia. f_equal. lia.
  - change (settlePoints 0 (t :: t' :: ts) T) with
      (if bool_decide (t + 0 ≤ t') then t + 0 :: settlePoints 0 (t' :: ts) T
       else settlePoints 0 (t' :: ts) T).
    apply Forall_cons_1 in Hle as [Hle _].
    rewrite bool_decide_eq_true_2 by lia. rewrite IH by done. f_equal. lia.
Qed.

Lemma settlePoints_spaced d ts T :
  spaced d ts → Forall (λ t, t + d ≤ T) ts →
  settlePoints d ts T = (λ t, t + d) <$> ts.
Proof.
  induction ts as [|t ts IH]; intros Hs HT; [done|].
  apply Forall_cons_1 in HT as [Ht HT].
  destruct ts as [|t' ts].
  - simpl. by rewrite bool_decide_eq_true_2.
  - destruct Hs as [Hgap Hs].
    change (settlePoints d (t :: t' :: ts) T) with
      (if bool_decide (t + d ≤ t') then t + d :: settlePoints d (t' :: ts) T
       else settlePoints d (t' :: ts) T).
    rewrite bool_decide_eq_true_2 by done. by rewrite IH.
Qed.

Lemma settlePoints_untied d ts T :
  untied d ts → settlePoints d ts T = settles d ts T.
Proof.
  induction ts as [|t ts IH]; intros Hu; [done|].
  destruct ts as [|t' ts]; [done|]. destruct Hu as [Hne Hu].
  change (settlePoints d (t :: t' :: ts) T) with
    (if bool_decide (t + d ≤ t') then t + d :: settlePoints d (t' :: ts) T
     else settlePoints d (t' :: ts) T).
  change (settles d (t :: t' :: ts) T) with
    (if bool_decide (t + d < t') then t + d :: settles d (t' :: ts) T
     else settles d (t' :: ts) T).
  rewrite IH by done.
  destruct (decide (t + d < t')).
  - by rewrite !bool_decide_eq_true_2 by lia.
  - by rewrite !bool_decide_eq_false_2 by lia.
Qed.

Lemma apart_spaced d ts : apart d ts → spaced d ts.
Proof.
  induction ts as [|t ts IH]; [done|].
  destruct ts as [|t' ts]; [done|]. intros [Hgap Ha].
  split; [lia|by apply IH].
Qed.

Lemma settlePoints_from d ts T w :
  w ∈ settlePoints d ts T → ∃ t, t ∈ ts ∧ w = t + d.
Proof.
  induction ts as [|t ts IH]; [by intros ?%elem_of_nil|].
  destruct ts as [|t' ts].
  - simpl. case_bool_decide; [|by intros ?%elem_of_nil].
    intros ->%list_elem_of_singleton. exists t. split; [left|done].
  - change (settlePoints d (t :: t' :: ts) T) with
      (if bool_decide (t + d ≤ t') then t + d :: settlePoints d (t' :: ts) T
       else settlePoints d (t' :: ts) T).
    case_bool_decide.
    + intros [->|Hin]%elem_of_cons.
      * exists t. split; [left|done].
      * destruct (IH Hin) as (t0 & Hin0 & ->). exists t0. split; [by right|done].
    + intros Hin. destruct (IH Hin) as (t0 & Hin0 & ->).
      exists t0. split; [by right|done].
Qed.

Lemma settlePoints_length d ts T :
  (length (settlePoints d ts T) ≤ length ts)%nat.
Proof.
  induction ts as [|t ts IH]; [done|].
  destruct ts as [|t' ts].
  - simpl. case_bool_decide; simpl; lia.
  - change (settlePoints d (t :: t' :: ts) T) with
      (if bool_decide (t + d ≤ t') then t + d :: settlePoints d (t' :: ts) T
       else settlePoints d (t' :: ts) T).
    case_bool_decide; simpl in *; lia.
Qed.

Lemma callsFor_self (out : list (Z * K)) e :
  e ∈ out → e ∈ callsFor e.2 out.
Proof. intros Hin. unfold callsFor. by apply list_elem_of_filter. Qed.

(** No invocation without a notification: every invocation is for a key
    that was notified, one arming span after one of its notifications. *)
Lemma simulate_from_notification delay evs T w k :
  chronological evs → Forall (λ e, e.1 ≤ T) evs →
  (w, k) ∈ simulate logReset logStart delay evs T →
  ∃ t, (t, k) ∈ evs ∧ w = expiry t delay.
Proof.
  intros Hsorted HT Hin. apply callsFor_self in Hin. simpl in Hin.
  rewrite simulate_settlePoints in Hin by done.
  apply list_elem_of_fmap in Hin as (w' & [= ->] & Hin).
  apply settlePoints_from in Hin as (t & Hin & ->).
  exists t. split; [|done]. unfold timesOf in Hin.
  apply list_elem_of_fmap in Hin as ([t' k'] & -> & Hin).
  by apply list_elem_of_filter in Hin as [<- Hin].
Qed.
End DebounceCourse.

(** ** The change debouncer, beyond one burst *)

(** X1.  For a chronological stream in which no notification of a
    descriptor falls on the very instant at which the timer armed by the
    one before it is due, the invocations of the dependency scan for the
    descriptor are exactly its settle points: one arming span ([delay],
    or nothing when [delay] is negative) after every notification of the
    descriptor that is followed by no other one until after that
    span. *)
Theorem settled_changes_are_the_settle_points (delay : Z)
    (evs : list (Z * ChangeType.t)) (d : ChangeType.t) (T : Z) :
  chronological evs →
  Forall (λ e, e.1 ≤ T) evs →
  untied (Z.max 0 delay) (timesOf d evs) →
  callsFor d (settledChanges delay evs T) =
    (λ t, (t, d)) <$> settles (Z.max 0 delay) (timesOf d evs) T.
Proof.
  intros Hsorted HT Hu. unfold settledChanges.
  rewrite simulate_settlePoints by done.
  by rewrite settlePoints_untied.
Qed.

Lemma settled_changes_are_the_settle_points_witness :
  callsFor cfgA
    (settledChanges 5 [(0, cfgA); (2, cfgA); (3, secB); (8, cfgA); (30, cfgA)] 32)
  = [(7, cfgA); (13, cfgA)].
Proof.
  apply (settled_changes_are_the_settle_points 5
           [(0, cfgA); (2, cfgA); (3, secB); (8, cfgA); (30, cfgA)] cfgA 32).
  - repeat constructor; simpl; lia.
  - repeat constructor; simpl; lia.
  - vm_compute. repeat split; discriminate.
Defined.

(** X2.  With a delay of zero or less nothing is debounced: when a
    descriptor is notified at distinct instants, every notification
    leads to an invocation of its own, at the instant of the
    notification. *)
Theorem nonpositive_delay_debounces_nothing (delay : Z)
    (evs : list (Z * ChangeType.t)) (d : ChangeType.t) (T : Z) :
  delay ≤ 0 →
  chronological evs →
  Forall (λ e, e.1 ≤ T) evs →
  NoDup (timesOf d evs) →
  callsFor d (settledChanges delay evs T) = filter (λ e, e.2 = d) evs.
Proof.
  intros Hd Hsorted HT Hdistinct. unfold settledChanges.
  rewrite simulate_settlePoints by done.
  rewrite Z.max_l by done.
  rewrite settlePoints_zero
    by eauto using timesOf_chronological, timesOf_bounded.
  by rewrite filter_key_times.
Qed.

Lemma nonpositive_delay_debounces_nothing_witness :
  callsFor cfgA (settledChanges (-3) [(0, cfgA); (1, secB); (2, cfgA); (2, secB)] 9)
  = [(0, cfgA); (2, cfgA)].
Proof.
  apply (nonpositive_delay_debounces_nothing (-3)
           [(0, cfgA); (1, secB); (2, cfgA); (2, secB)] cfgA 9).
  - lia.
  - repeat constructor; simpl; lia.
  - repeat constructor; simpl; lia.
  - apply (bool_decide_unpack _). vm_compute. exact I.
Defined.

(** X3.  Notifications of a descriptor that are more than [delay] apart
    are not coalesced: each one leads to an invocation, [delay] after
    it. *)
Theorem spaced_notifications_settle_one_by_one (delay : Z)
    (evs : list (Z * ChangeType.t)) (d : ChangeType.t) (T : Z) :
  0 ≤ delay →
  chronological evs →
  Forall (λ e, e.1 ≤ T) evs →
  apart delay (timesOf d evs) →
  Forall (λ t, t + delay ≤ T) (timesOf d evs) →
  callsFor d (settledChanges delay evs T) =
    (λ t, (t + delay, d)) <$> timesOf d evs.
Proof.
  intros Hd Hsorted HT Hapart Hend. unfold settledChanges.
  rewrite simulate_settlePoints by done.
  rewrite Z.max_r by done.
  rewrite settlePoints_spaced by eauto using apart_spaced.
  by rewrite <- list_fmap_compose.
Qed.

Lemma spaced_notifications_settle_one_by_one_witness :
  callsFor cfgA (settledChanges 5 [(0, cfgA); (3, secB); (6, cfgA); (12, cfgA)] 20)
  = [(5, cfgA); (11, cfgA); (17, cfgA)].
Proof.
  apply (spaced_notifications_settle_one_by_one 5
           [(0, cfgA); (3, secB); (6, cfgA); (12, cfgA)] cfgA 20).
  - lia.
  - repeat constructor; simpl; lia.
  - repeat constructor; simpl; lia.
  - vm_compute. done.
  - vm_compute. repeat constructor; discriminate.
Defined.

(** X4.  The debouncer never invents a change: every invocation of the
    dependency scan is for a descriptor that was notified, at the instant
    the timer armed by one of its notifications expires, and a descriptor
    is never settled more often than it was notified. *)
Theorem no_settled_change_without_notification (delay : Z)
    (evs : list (Z * ChangeType.t)) (T : Z) :
  chronological evs →
  Forall (λ e, e.1 ≤ T) evs →
  (∀ w d, (w, d) ∈ settledChanges delay evs T →
     ∃ t, (t, d) ∈ evs ∧ w = expiry t delay) ∧
  (∀ d, (length (callsFor d (settledChanges delay evs T))
         ≤ length (timesOf d evs))%nat).
Proof.
  intros Hsorted HT. split.
  - intros w d Hin. by eapply simulate_from_notification.
  - intros d. unfold settledChanges. rewrite simulate_settlePoints by done.
    rewrite length_fmap. apply settlePoints_length.
Qed.

Lemma no_settled_change_without_notification_witness :
  (7, secB) ∉ settledChanges 5 [(0, cfgA); (2, cfgA)] 20.
Proof.
  intros Hin.
  destruct (no_settled_change_without_notification 5 [(0, cfgA); (2, cfgA)] 20)
    as [Hfrom _].
  - repeat constructor; simpl; lia.
  - repeat constructor; simpl; lia.
  - destruct (Hfrom 7 secB Hin) as (t & Ht & _).
    apply elem_of_cons in Ht as [Ht|Ht]; [discriminate Ht|].
    apply elem_of_cons in Ht as [Ht|Ht]; [discriminate Ht|].
    by apply elem_of_nil in Ht.
Defined.

(** X5.  In serial runs the two maps and their timers describe each
    other at every step: every entry points at a live timer of its key
    (no entry outlives its timer) and every live timer is the entry of
    its key (no timer counts down unseen). *)
Theorem serial_runs_keep_maps_and_timers_in_step (delay : Z) :
  (∀ acts : list (Serial ChangeType.t),
     let s := serially sawChangeResetting sawChangeStarting delay acts noTimers in
     (∀ k i, table s !! k = Some i → live s i k) ∧
     (∀ i k, live s i k → table s !! k = Some i)) ∧
  (∀ acts : list (Serial Deployment.t),
     let s := serially resettingQueuedUpdate queuingUpdate delay acts noTimers in
     (∀ k i, table s !! k = Some i → live s i k) ∧
     (∀ i k, live s i k → table s !! k = Some i)).
Proof.
  split; intros acts; apply consistent_serially, consistent_noTimers.
Qed.

(** ** The resolver and the update debouncer together *)

Lemma queueDeployment_logs now delay deployment s :
  ∃ line, logs (queueDeployment now delay deployment s) = logs s ++ [line] ∧
          queueLine line deployment.
Proof.
  unfold queueDeployment, debounce, lookupTimer, queueLine.
  destruct (table s !! _); simpl; eexists; split; eauto.
Qed.

Lemma queueAll_logs now delay l s :
  ∃ lines,
    logs (foldl (λ s d, queueDeployment now delay d s) s l) = logs s ++ lines ∧
    Forall2 queueLine lines l.
Proof.
  revert s. induction l as [|d l IH]; intros s.
  - exists []. split; [by rewrite app_nil_r|constructor].
  - simpl. destruct (IH (queueDeployment now delay d s)) as (lines & -> & Hall).
    destruct (queueDeployment_logs now delay d s) as (line & -> & Hline).
    exists (line :: lines). split; [by rewrite <- app_assoc|by constructor].
Qed.

Lemma queueAll_key now delay l s :
  consistent s →
  consistent (foldl (λ s d, queueDeployment now delay d s) s l) ∧
  ∀ k, deadline (foldl (λ s d, queueDeployment now delay d s) s l) k =
         if decide (k ∈ depKey <$> l) then Some (expiry now delay)
         else deadline s k.
Proof.
  revert s. induction l as [|d l IH]; intros s Hc.
  - split; [done|]. intros k. rewrite decide_False; [done|].
    by intros ?%elem_of_nil.
  - simpl.
    assert (consistent (queueDeployment now delay d s)) as Hc'.
    { rewrite queueDeployment_debounce. by apply consistent_debounce. }
    destruct (IH _ Hc') as [Hc'' Hk]. split; [done|]. intros k.
    rewrite Hk, queueDeployment_debounce, deadline_debounce by done.
    change (depKey <$> d :: l) with (depKey d :: (depKey <$> l)).
    destruct (decide (k ∈ depKey <$> l)) as [Hin|Hin].
    + rewrite decide_True; [done|]. by right.
    + destruct (decide (k = depKey d)) as [->|Hne].
      * rewrite decide_True; [done|]. by left.
      * rewrite decide_False; [done|].
        intros [?|?]%elem_of_cons; done.
Qed.

Lemma deploymentLoop_key now delay change items s :
  consistent s →
  consistent (deploymentLoop now delay change items s) ∧
  ∀ k, deadline (deploymentLoop now delay change items s) k =
         if decide (k ∈ depKey <$> filter (dependsOn change) items)
         then Some (expiry now delay) else deadline s k.
Proof. rewrite deploymentLoop_filter. apply queueAll_key. Qed.

Lemma resolveAt_key now delay change items st :
  consistent st.1 →
  consistent (resolveAt now delay change items st).1 ∧
  ∀ k, (deadline (resolveAt now delay change items st).1 k,
        callsFor k (resolveAt now delay change items st).2) =
       let st1 := keyAdvance k now (deadline st.1 k, callsFor k st.2) in
       (if decide (k ∈ depKey <$> filter (dependsOn change) items)
        then Some (expiry now delay) else st1.1, st1.2).
Proof.
  intros Hc. unfold resolveAt.
  destruct (runTimers_key now st.1 st.2 Hc) as [Hc1 Hk1].
  destruct (runTimers now st.1 st.2) as [u out]. simpl in *.
  destruct (deploymentLoop_key now delay change items u Hc1) as [Hc2 Hk2].
  split; [done|]. intros k. rewrite Hk2, <- Hk1. simpl.
  by destruct (decide _).
Qed.

Lemma references_kinds src ref :
  ref ∈ references src → ref.1 = "ConfigMap" ∨ ref.1 = "Secret".
Proof.
  destruct src as [env|env]; simpl.
  - destruct (EnvFromSource.ConfigMapRef env), (EnvFromSource.SecretRef env);
      simpl; rewrite ?elem_of_cons, ?elem_of_nil; intuition (subst; auto).
  - destruct (EnvVar.ValueFrom env) as [from|]; [|by intros ?%elem_of_nil].
    destruct (EnvVarSource.ConfigMapKeyRef from),
             (EnvVarSource.SecretKeyRef from);
      simpl; rewrite ?elem_of_cons, ?elem_of_nil; intuition (subst; auto).
Qed.

Lemma filter_none {A} (P : A → Prop) `{∀ x, Decision (P x)} (l : list A) :
  (∀ x, x ∈ l → ¬ P x) → filter P l = [].
Proof.
  induction l as [|x l IH]; intros Hno; [done|].
  rewrite filter_cons_False by (apply Hno; left).
  apply IH. intros y Hy. apply Hno. by right.
Qed.

Lemma filter_all {A} (P : A → Prop) `{∀ x, Decision (P x)} (l : list A) :
  (∀ x, x ∈ l → P x) → filter P l = l.
Proof.
  induction l as [|x l IH]; intros Hall; [done|].
  rewrite filter_cons_True by (apply Hall; left).
  f_equal. apply IH. intros y Hy. apply Hall. by right.
Qed.

(** X6.  After a scan from a state in which maps and timers are in step,
    they still are; every workload of the listing that depends on the
    change is pending, due [delay] from now, whether it was pending
    before or not; and the countdown of every other workload is as it
    was. *)
Theorem scan_leaves_every_dependent_workload_pending (now delay : Z)
    (change : ChangeType.t) (items : list apps.Deployment)
    (updateTimers : Timers Deployment.t) :
  consistent updateTimers →
  ∃ updateTimers',
    findAndQueueDeployments now delay change (Ok items) updateTimers =
      Returned updateTimers' ∧
    consistent updateTimers' ∧
    (∀ deployment, deployment ∈ items → dependsOn change deployment →
       deadline updateTimers' (depKey deployment) = Some (expiry now delay)) ∧
    (∀ dep,
       (∀ deployment, deployment ∈ items → dependsOn change deployment →
          depKey deployment ≠ dep) →
       deadline updateTimers' dep = deadline updateTimers dep).
Proof.
  intros Hc. eexists. split; [reflexivity|].
  destruct (deploymentLoop_key now delay change items updateTimers Hc)
    as [Hc' Hk].
  split; [done|]. split.
  - intros d Hin Hdep. rewrite Hk, decide_True; [done|].
    apply list_elem_of_fmap. exists d. split; [done|].
    by apply list_elem_of_filter.
  - intros dep Hother. rewrite Hk, decide_False; [done|].
    intros (d & -> & Hin)%list_elem_of_fmap.
    apply list_elem_of_filter in Hin as [Hdep Hin].
    by apply (Hother d).
Qed.

Lemma scan_leaves_every_dependent_workload_pending_witness :
  ∃ updateTimers',
    findAndQueueDeployments 3 5 cfgA (Ok [migrate; web])
      (queueDeployment 0 5 web noTimers) = Returned updateTimers' ∧
    deadline updateTimers' (depKey web) = Some 8 ∧
    deadline updateTimers' (depKey migrate) = None.
Proof.
  assert (consistent (queueDeployment 0 5 web noTimers)) as Hc.
  { rewrite queueDeployment_debounce.
    apply consistent_debounce, consistent_noTimers. }
  destruct (scan_leaves_every_dependent_workload_pending 3 5 cfgA
              [migrate; web] _ Hc) as (u' & Hu' & _ & Hdue & Hrest).
  exists u'. split; [exact Hu'|]. split.
  - apply (Hdue web).
    + right. left.
    + apply (bool_decide_unpack _). vm_compute. exact I.
  - rewrite (Hrest (depKey migrate)); [reflexivity|].
    intros d Hin Hdep Hkey.
    apply elem_of_cons in Hin as [->|Hin].
    + revert Hdep. apply (bool_decide_unpack (¬ _)). vm_compute. exact I.
    + apply elem_of_cons in Hin as [->|Hin]; [discriminate Hkey|].
      by apply elem_of_nil in Hin.
Defined.

(** X7.  A scan prints one line per dependent workload and no other:
    the log grows by exactly one of the two lines of [queueDeployment]
    for each workload of the listing that depends on the change, in the
    order of the listing; a workload that does not depend on it leaves
    no line. *)
Theorem scan_logs_one_line_per_dependent_workload (now delay : Z)
    (change : ChangeType.t) (items : list apps.Deployment)
    (updateTimers : Timers Deployment.t) :
  ∃ updateTimers' lines,
    findAndQueueDeployments now delay change (Ok items) updateTimers =
      Returned updateTimers' ∧
    logs updateTimers' = logs updateTimers ++ lines ∧
    Forall2 queueLine lines (filter (dependsOn change) items).
Proof.
  simpl. rewrite deploymentLoop_filter.
  destruct (queueAll_logs now delay (filter (dependsOn change) items)
              updateTimers) as (lines & Hlogs & Hall).
  by eexists _, lines.
Qed.

(** X8.  A change whose kind is neither ConfigMap nor Secret matches no
    workload: the scan returns with the update timers and the log as
    they were, whatever the listing. *)
Theorem unknown_kind_queues_nothing (now delay : Z) (change : ChangeType.t)
    (items : list apps.Deployment) (updateTimers : Timers Deployment.t) :
  ChangeType.Type_ change ≠ "ConfigMap" →
  ChangeType.Type_ change ≠ "Secret" →
  findAndQueueDeployments now delay change (Ok items) updateTimers =
    Returned updateTimers.
Proof.
  intros Hcm Hs. simpl. rewrite deploymentLoop_filter.
  rewrite filter_none; [done|].
  intros d _ Hdep. unfold dependsOn in Hdep.
  apply Exists_exists in Hdep as (src & _ & Href).
  apply references_kinds in Href. simpl in Href. by destruct Href.
Qed.

Lemma unknown_kind_queues_nothing_witness :
  findAndQueueDeployments 0 5 (ChangeType.mk "configmap" "cfg-a")
    (Ok [web; migrate]) noTimers = Returned noTimers.
Proof.
  apply (unknown_kind_queues_nothing 0 5 (ChangeType.mk "configmap" "cfg-a")
           [web; migrate] noTimers); discriminate.
Defined.

(** X9.  Two settled changes that both match a workload of the same
    name and resource version, the second less than [delay] after the
    first, lead to one invocation of [patchDeployment] for it, [delay]
    after the second: the update debouncer coalesces them. *)
Theorem two_changes_one_patch (delay s1 s2 T : Z) (c1 c2 : ChangeType.t)
    (items1 items2 : list apps.Deployment) (d1 d2 : apps.Deployment)
    (updateTimers : Timers Deployment.t) (out : list (Z * Deployment.t)) :
  consistent updateTimers →
  deadline updateTimers (depKey d1) = None →
  d1 ∈ items1 → dependsOn c1 d1 →
  d2 ∈ items2 → dependsOn c2 d2 →
  depKey d2 = depKey d1 →
  s1 ≤ s2 → s2 < s1 + delay → s2 + delay ≤ T →
  let st1 := resolveAt s1 delay c1 items1 (updateTimers, out) in
  let st2 := resolveAt s2 delay c2 items2 st1 in
  callsFor (depKey d1) (runTimers T st2.1 st2.2).2 =
    callsFor (depKey d1) out ++ [(s2 + delay, depKey d1)].
Proof.
  intros Hc Hnone Hin1 Hdep1 Hin2 Hdep2 Hkey H12 Hwin HT. simpl.
  assert (depKey d1 ∈ depKey <$> filter (dependsOn c1) items1) as Hk1.
  { apply list_elem_of_fmap. exists d1. split; [done|].
    by apply list_elem_of_filter. }
  assert (depKey d1 ∈ depKey <$> filter (dependsOn c2) items2) as Hk2.
  { apply list_elem_of_fmap. exists d2. split; [done|].
    by apply list_elem_of_filter. }
  destruct (resolveAt_key s1 delay c1 items1 (updateTimers, out) Hc)
    as [Hc1 Hr1].
  specialize (Hr1 (depKey d1)). simpl in Hr1.
  rewrite Hnone, keyAdvance_idle, decide_True in Hr1 by done.
  simpl in Hr1. injection Hr1 as Hd1 Ho1.
  destruct (resolveAt_key s2 delay c2 items2 _ Hc1) as [Hc2 Hr2].
  specialize (Hr2 (depKey d1)). simpl in Hr2.
  rewrite Hd1, Ho1, decide_True in Hr2 by done.
  rewrite keyAdvance_later in Hr2 by (unfold expiry; lia).
  simpl in Hr2. injection Hr2 as Hd2 Ho2.
  destruct (runTimers_key T _ (resolveAt s2 delay c2 items2
              (resolveAt s1 delay c1 items1 (updateTimers, out))).2 Hc2)
    as [_ Hr3].
  specialize (Hr3 (depKey d1)). rewrite Hd2, Ho2 in Hr3.
  rewrite keyAdvance_due in Hr3 by (unfold expiry; lia).
  injection Hr3 as _ Hr3. rewrite Hr3. unfold expiry.
  by rewrite Z.max_r by lia.
Qed.

Lemma two_changes_one_patch_witness :
  callsFor (depKey web)
    (runTimers 20
       (resolveAt 2 5 secB [workload "web" "41" [] [usingSecret "sec-b"]]
          (resolveAt 0 5 cfgA [migrate; web] (noTimers, []))).1
       (resolveAt 2 5 secB [workload "web" "41" [] [usingSecret "sec-b"]]
          (resolveAt 0 5 cfgA [migrate; web] (noTimers, []))).2).2
  = [(7, depKey web)].
Proof.
  apply (two_changes_one_patch 5 0 2 20 cfgA secB [migrate; web]
           [workload "web" "41" [] [usingSecret "sec-b"]]
           web (workload "web" "41" [] [usingSecret "sec-b"]) noTimers []).
  - apply consistent_noTimers.
  - reflexivity.
  - right. left.
  - apply (bool_decide_unpack _). vm_compute. exact I.
  - left.
  - apply (bool_decide_unpack _). vm_compute. exact I.
  - reflexivity.
  - lia.
  - lia.
  - lia.
Defined.

(** ** From a notification to the patch *)

(** X10.  When one descriptor is notified in a burst and a workload of
    the listing taken at the settling instant depends on it, the
    dependency scan runs once, [delay] after the last notification, and
    [patchDeployment] is invoked once for that workload, [delay] after
    the scan: twice the delay after the last notification. *)
Theorem one_change_patches_after_twice_the_delay (delay : Z)
    (evs : list (Z * ChangeType.t)) (d : ChangeType.t)
    (listing : Z → list apps.Deployment) (deployment : apps.Deployment)
    (tN T : Z) :
  0 ≤ delay →
  Forall (λ e, e.2 = d) evs →
  chronological evs →
  Forall (λ e, e.1 ≤ T) evs →
  burst delay (timesOf d evs) →
  last (timesOf d evs) = Some tN →
  tN + 2 * delay ≤ T →
  deployment ∈ listing (tN + delay) →
  dependsOn d deployment →
  settledChanges delay evs T = [(tN + delay, d)] ∧
  callsFor (depKey deployment) (patchCalls delay evs listing T) =
    [(tN + 2 * delay, depKey deployment)].
Proof.
  intros Hd Hkeys Hsorted HT Hb Hlast HTN Hin Hdep.
  assert (settledChanges delay evs T = [(tN + delay, d)]) as Hsettled.
  { rewrite <- (simulate_burst sawChangeResetting sawChangeStarting
                  delay evs d tN T) by (done || lia).
    unfold settledChanges, callsFor. symmetry. apply filter_all.
    intros [w k] Hout.
    destruct (simulate_from_notification _ _ _ _ _ _ _ Hsorted HT Hout)
      as (t & Ht & _).
    rewrite Forall_forall in Hkeys. by apply (Hkeys _ Ht). }
  split; [done|].
  unfold patchCalls. rewrite Hsettled. cbn [foldl fst snd].
  destruct (resolveAt_key (tN + delay) delay d (listing (tN + delay))
              (noTimers, []) consistent_noTimers) as [Hc Hr].
  specialize (Hr (depKey deployment)). cbv zeta in Hr.
  rewrite decide_True in Hr.
  2:{ apply list_elem_of_fmap. exists deployment. split; [done|].
      by apply list_elem_of_filter. }
  apply pair_equal_spec in Hr as [Hdl Hout].
  destruct (runTimers_key T _
              (resolveAt (tN + delay) delay d (listing (tN + delay))
                 (noTimers, [])).2 Hc) as [_ Hr'].
  specialize (Hr' (depKey deployment)). rewrite Hdl, Hout in Hr'.
  rewrite keyAdvance_due in Hr' by (unfold expiry; lia).
  apply pair_equal_spec in Hr' as [_ Hr']. rewrite Hr'. unfold expiry.
  rewrite Z.max_r by done.
  replace (tN + delay + delay) with (tN + 2 * delay) by lia.
  reflexivity.
Qed.

Lemma one_change_patches_after_twice_the_delay_witness :
  settledChanges 5 [(0, cfgA); (2, cfgA)] 20 = [(7, cfgA)] ∧
  callsFor (depKey web)
    (patchCalls 5 [(0, cfgA); (2, cfgA)] (λ _, [migrate; web]) 20)
  = [(12, depKey web)].
Proof.
  apply (one_change_patches_after_twice_the_delay 5 [(0, cfgA); (2, cfgA)]
           cfgA (λ _, [migrate; web]) web 2 20).
  - lia.
  - repeat constructor.
  - repeat constructor; simpl; lia.
  - repeat constructor; simpl; lia.
  - vm_compute. done.
  - reflexivity.
  - lia.
  - right. left.
  - apply (bool_decide_unpack _). vm_compute. exact I.
Defined.

(** ** The trace of the patch applier *)

(** X11.  Every run of [patchDeployment] starts with the fetch and ends
    with a log line, which is its only one: no run is silent.  That line
    reports success exactly when the fetch, both serializations, the
    computation of the patch and its submission have all succeeded. *)
Theorem patchDeployment_logs_once_and_last
    (Get : string → meta.GetOptions → Result apps.Deployment)
    (Patch : string → string → Result apps.Deployment)
    (jsonMarshal : apps.Deployment → Result string)
    (CreateTwoWayMergePatch : string → string → Result string)
    (formatRFC3339 : Z → string) (clock : Z) (deployment : Deployment.t) :
  let trace :=
    patchDeployment Get Patch jsonMarshal CreateTwoWayMergePatch
      formatRFC3339 clock deployment in
  head trace =
    Some (CallGet (Deployment.Name deployment) (Deployment.Options deployment)) ∧
  (∃ line,
     last trace = Some (Log line) ∧
     filter (λ a, isLog a = true) trace = [Log line]) ∧
  (∀ name, Log (Patched name) ∈ trace ↔
     ∃ dep current updated patch result,
       Get (Deployment.Name deployment) (Deployment.Options deployment) = Ok dep ∧
       jsonMarshal dep = Ok current ∧
       jsonMarshal (touch (formatRFC3339 clock) dep) = Ok updated ∧
       CreateTwoWayMergePatch current updated = Ok patch ∧
       Patch (ObjectMeta.Name (apps.ObjectMeta dep)) patch = Ok result ∧
       name = ObjectMeta.Name (apps.ObjectMeta dep)).
Proof.
  simpl. unfold patchDeployment.
  destruct (Get _ _) as [dep|e1] eqn:HGet;
    [destruct (jsonMarshal dep) as [current|e2] eqn:Hcur;
     [destruct (jsonMarshal (touch _ dep)) as [updated|e3] eqn:Hupd;
      [destruct (CreateTwoWayMergePatch current updated) as [patch|e4] eqn:Hp;
       [destruct (Patch _ patch) as [result|e5] eqn:Hsub|]|]|]|].
  all: rewrite ?touch_name in *.
  all: split; [done|]; split; [by eexists|]; intros name; split.
  all: try (intros Hin;
            repeat (apply elem_of_cons in Hin as [Hin|Hin]; [discriminate Hin|]);
            apply elem_of_nil in Hin; done).
  all: try (intros (dep' & current' & updated' & patch' & result' &
                    H1 & H2 & H3 & H4 & H5 & ->); congruence).
  - intros Hin.
    repeat (apply elem_of_cons in Hin as [Hin|Hin];
            [first [discriminate Hin | injection Hin as ->]|]).
    + by eexists dep, current, updated, patch, result.
    + by apply elem_of_nil in Hin.
  - intros (dep' & current' & updated' & patch' & result' &
            H1 & H2 & H3 & H4 & H5 & ->).
    assert (dep' = dep) as -> by congruence.
    do 5 right. left.
Qed.

(** ** The watch loops, over whole streams *)

Lemma Filter_filter (evs : list (Z * watch.Event)) :
  watch.Filter filterFunc evs =
    filter (λ te, watch.Type_ te.2 = "MODIFIED") evs.
Proof.
  induction evs as [|[now event] evs IH]; [done|].
  destruct (decide (watch.Type_ event = "MODIFIED")) as [Hty|Hty].
  - rewrite Filter_modified, filter_cons_True by done. by rewrite IH.
  - rewrite Filter_other, filter_cons_False by done. by rewrite IH.
Qed.

(** X12.  [watch.Filter] with [filterFunc] hands on the MODIFIED events
    and only them, each unchanged and in the order of arrival; what it
    hands on does not depend on the objects the events carry. *)
Theorem filter_keeps_the_modified_events (evs : list (Z * watch.Event)) :
  watch.Filter filterFunc evs =
    filter (λ te, watch.Type_ te.2 = "MODIFIED") evs ∧
  (∀ te, te ∈ watch.Filter filterFunc evs ↔
         te ∈ evs ∧ watch.Type_ te.2 = "MODIFIED") ∧
  watch.Filter filterFunc evs `sublist_of` evs.
Proof.
  rewrite Filter_filter. split; [done|]. split.
  - intros te. rewrite list_elem_of_filter. tauto.
  - apply sublist_filter.
Qed.

Lemma rangeOver_course body delay (change : watch.Event → option ChangeType.t) :
  (∀ now event s,
     body now delay event s =
       match change event with
       | Some c => Returned (delayedUpdate now delay c s)
       | None => Panicked NilPointerDereference
       end) →
  ∀ evs s,
    (rangeOver body delay evs s = Panicked NilPointerDereference ↔
     Exists (λ te, change te.2 = None) evs) ∧
    (Forall (λ te, is_Some (change te.2)) evs →
     rangeOver body delay evs s =
       Returned (notifyAll delay (omap (λ te, pair te.1 <$> change te.2) evs) s)).
Proof.
  intros Hbody evs. induction evs as [|[now event] evs IH]; intros s.
  - simpl. split; [|done]. split; [done|]. by intros ?%Exists_nil.
  - simpl. rewrite Hbody, Exists_cons. simpl.
    destruct (change event) as [c|] eqn:Hc; simpl.
    + destruct (IH (delayedUpdate now delay c s)) as [IH1 IH2]. split.
      * rewrite IH1. split; [by right|]. by intros [?|?].
      * intros [_ Hall]%Forall_cons_1. by apply IH2.
    + split.
      * split; [intros _; by left|done].
      * intros Hall. apply Forall_cons_1 in Hall as [[c Hsome] _].
        simpl in Hsome. congruence.
Qed.

Lemma configMapEvent_change now delay event s :
  configMapEvent now delay event s =
    match configMapChange event with
    | Some c => Returned (delayedUpdate now delay c s)
    | None => Panicked NilPointerDereference
    end.
Proof.
  unfold configMapEvent, configMapChange.
  by destruct (assertConfigMap (watch.Object_ event)).
Qed.

Lemma secretEvent_change now delay event s :
  secretEvent now delay event s =
    match secretChange event with
    | Some c => Returned (delayedUpdate now delay c s)
    | None => Panicked NilPointerDereference
    end.
Proof.
  unfold secretEvent, secretChange.
  by destruct (assertSecret (watch.Object_ event)).
Qed.

(** X13.  A stream without MODIFIED events does nothing: whatever its
    events carry (an added or deleted object, the Status of an ERROR
    event, nothing at all), both loops return with the timers as they
    were and nothing panics. *)
Theorem other_events_are_ignored (delay : Z) (evs : list (Z * watch.Event))
    (changeTimers : Timers ChangeType.t) :
  Forall (λ te, watch.Type_ te.2 ≠ "MODIFIED") evs →
  watchConfigMaps delay evs changeTimers = Returned changeTimers ∧
  watchSecrets delay evs changeTimers = Returned changeTimers.
Proof.
  intros Hall. unfold watchConfigMaps, watchSecrets.
  rewrite Filter_filter, filter_none; [done|].
  intros te Hin. rewrite Forall_forall in Hall. by apply Hall.
Qed.

Lemma other_events_are_ignored_witness :
  watchConfigMaps 5
    [(0, watch.mkEvent "ERROR" (watch.StatusObject "too old resource version"));
     (1, watch.mkEvent "DELETED" watch.NilObject)]
    noTimers = Returned noTimers.
Proof.
  apply (other_events_are_ignored 5
           [(0, watch.mkEvent "ERROR" (watch.StatusObject "too old resource version"));
            (1, watch.mkEvent "DELETED" watch.NilObject)] noTimers).
  repeat constructor; discriminate.
Defined.

(** X14.  Each watch loop ends in a nil dereference exactly when one of
    the MODIFIED events of its stream carries an object that is not of
    the watched type, wherever in the stream it is.  Otherwise the loop
    has on the timers the effect of the calls of [delayedUpdate], in the
    order of arrival, for the names of the modified objects under the
    kind of the stream. *)
Theorem watch_loops_over_whole_streams (delay : Z)
    (evs : list (Z * watch.Event)) (changeTimers : Timers ChangeType.t) :
  let modified := filter (λ te, watch.Type_ te.2 = "MODIFIED") evs in
  (watchConfigMaps delay evs changeTimers = Panicked NilPointerDereference ↔
   Exists (λ te, configMapChange te.2 = None) modified) ∧
  (Forall (λ te, is_Some (configMapChange te.2)) modified →
   watchConfigMaps delay evs changeTimers =
     Returned
       (notifyAll delay (omap (λ te, pair te.1 <$> configMapChange te.2) modified)
          changeTimers)) ∧
  (watchSecrets delay evs changeTimers = Panicked NilPointerDereference ↔
   Exists (λ te, secretChange te.2 = None) modified) ∧
  (Forall (λ te, is_Some (secretChange te.2)) modified →
   watchSecrets delay evs changeTimers =
     Returned
       (notifyAll delay (omap (λ te, pair te.1 <$> secretChange te.2) modified)
          changeTimers)).
Proof.
  simpl. unfold watchConfigMaps, watchSecrets.
  rewrite Filter_filter.
  destruct (rangeOver_course configMapEvent delay configMapChange
              (λ now event s, configMapEvent_change now delay event s)
              (filter (λ te, watch.Type_ te.2 = "MODIFIED") evs) changeTimers)
    as [Hc1 Hc2].
  destruct (rangeOver_course secretEvent delay secretChange
              (λ now event s, secretEvent_change now delay event s)
              (filter (λ te, watch.Type_ te.2 = "MODIFIED") evs) changeTimers)
    as [Hs1 Hs2].
  done.
Qed.

Lemma watch_loops_over_whole_streams_witness :
  watchConfigMaps 5
    [(0, watch.mkEvent "ADDED" (watch.StatusObject ""));
     (1, watch.mkEvent "MODIFIED"
           (watch.ConfigMapObject (ConfigMap.mk (plainMeta "cfg-a" "3") ∅)));
     (2, watch.mkEvent "MODIFIED"
           (watch.ConfigMapObject (ConfigMap.mk (plainMeta "cfg-a" "4") ∅)))]
    noTimers
  = Returned (delayedUpdate 2 5 cfgA (delayedUpdate 1 5 cfgA noTimers)) ∧
  watchSecrets 5
    [(0, watch.mkEvent "MODIFIED" (watch.SecretObject (Secret.mk (plainMeta "sec-b" "1") ∅)));
     (1, watch.mkEvent "MODIFIED" watch.NilObject)]
    noTimers
  = Panicked NilPointerDereference.
Proof.
  split.
  - apply (watch_loops_over_whole_streams 5
      [(0, watch.mkEvent "ADDED" (watch.StatusObject ""));
       (1, watch.mkEvent "MODIFIED"
             (watch.ConfigMapObject (ConfigMap.mk (plainMeta "cfg-a" "3") ∅)));
       (2, watch.mkEvent "MODIFIED"
             (watch.ConfigMapObject (ConfigMap.mk (plainMeta "cfg-a" "4") ∅)))]
      noTimers).
    repeat constructor; by eexists.
  - apply (watch_loops_over_whole_streams 5
      [(0, watch.mkEvent "MODIFIED"
             (watch.SecretObject (Secret.mk (plainMeta "sec-b" "1") ∅)));
       (1, watch.mkEvent "MODIFIED" watch.NilObject)]
      noTimers).
    right. left. reflexivity.
Defined.

(** ** Start-up *)

Lemma wrap64_id (z : Z) : wrap64 z = z ↔ - 2 ^ 63 ≤ z < 2 ^ 63.
Proof.
  unfold wrap64.
  change (2 ^ 63) with 9223372036854775808.
  change (2 ^ 64) with 18446744073709551616.
  pose proof (Z.mod_pos_bound (z + 9223372036854775808) 18446744073709551616).
  split.
  - lia.
  - intros Hz. rewrite Z.mod_small by lia. lia.
Qed.

Lemma seconds_exact (n : Z) :
  - 2 ^ 63 ≤ n < 2 ^ 63 →
  seconds n = n * Second ↔ -9223372036 ≤ n ≤ 9223372036.
Proof.
  intros Hn. unfold seconds. rewrite (proj2 (wrap64_id n) Hn).
  rewrite wrap64_id. unfold Second.
  change (2 ^ 63) with 9223372036854775808. lia.
Qed.

Section StartupFacts.
Variable Getenv : string → string.
Variable Atoi : string → Result Z.
Variable InClusterConfig : Result rest.Config.
Variable NewForConfig : rest.Config → option error.

Lemma chooseDelay_returns :
  (∃ delay, chooseDelay Getenv Atoi = Returned delay) ↔
  Getenv "CONFIGMASTER_DELAY" = "" ∨
  ∃ di, Atoi (Getenv "CONFIGMASTER_DELAY") = Ok di.
Proof.
  unfold chooseDelay. case_bool_decide as Hd.
  - destruct (Atoi _) as [di|err].
    + split; [intros _; right; by eexists|intros _; by eexists].
    + split; [by intros [? ?]|]. intros [?|[? ?]]; done.
  - split; [intros _; left|intros _; by eexists].
    by destruct (decide (Getenv "CONFIGMASTER_DELAY" = "")).
Qed.

Lemma chooseConfig_returns config :
  chooseConfig Getenv InClusterConfig = Returned config ↔
  (Getenv "KUBERNETES_SERVICE_HOST" ≠ "" ∧
   Getenv "KUBERNETES_SERVICE_PORT" ≠ "" ∧
   InClusterConfig = Ok config) ∨
  (¬ (Getenv "KUBERNETES_SERVICE_HOST" ≠ "" ∧
      Getenv "KUBERNETES_SERVICE_PORT" ≠ "") ∧
   Getenv "CONFIGMASTER_HOST" ≠ "" ∧
   config = rest.mkConfig (Getenv "CONFIGMASTER_HOST")).
Proof.
  unfold chooseConfig.
  destruct (bool_decide (Getenv "KUBERNETES_SERVICE_HOST" ≠ "") &&
            bool_decide (Getenv "KUBERNETES_SERVICE_PORT" ≠ "")) eqn:Hin.
  - apply andb_true_iff in Hin as [Hh%bool_decide_eq_true Hp%bool_decide_eq_true].
    destruct InClusterConfig as [cfg|err].
    + split; [intros [= ->]; left; auto|].
      intros [(_ & _ & [= ->])|(Hno & _)]; [done|]. by destruct Hno.
    + split; [done|]. intros [(_ & _ & ?)|(Hno & _)]; [done|]. by destruct Hno.
  - assert (¬ (Getenv "KUBERNETES_SERVICE_HOST" ≠ "" ∧
               Getenv "KUBERNETES_SERVICE_PORT" ≠ "")) as Hno.
    { intros [Hh Hp]. apply andb_false_iff in Hin as [Hin|Hin];
        apply bool_decide_eq_false in Hin; done. }
    clear Hin.
    destruct (bool_decide (Getenv "CONFIGMASTER_HOST" = "")) eqn:Hhost.
    + apply bool_decide_eq_true in Hhost.
      split; [done|]. intros [(Hh & Hp & _)|(_ & Hne & _)]; [|done].
      by destruct Hno.
    + apply bool_decide_eq_false in Hhost.
      split; [intros [= <-]; right; auto|].
      intros [(Hh & Hp & _)|(_ & _ & ->)]; [|done]. by destruct Hno.
Qed.
End StartupFacts.

(** X15.  [main] gets as far as its watchers exactly when the delay is
    unset or [strconv.Atoi] reads it, a configuration is found (the
    in-cluster one when KUBERNETES_SERVICE_HOST and
    KUBERNETES_SERVICE_PORT are both set, the host of CONFIGMASTER_HOST,
    which must then be set, in every other case, also when only one of
    the two is set) and the client can be made for it; the namespace
    never stops it.  In every other case it panics. *)
Theorem startup_succeeds_exactly_when
    (Getenv : string → string) (Atoi : string → Result Z)
    (InClusterConfig : Result rest.Config)
    (NewForConfig : rest.Config → option error) :
  (∃ settings line,
     startup Getenv Atoi InClusterConfig NewForConfig = Returned (settings, line)) ↔
  (Getenv "CONFIGMASTER_DELAY" = "" ∨
   ∃ di, Atoi (Getenv "CONFIGMASTER_DELAY") = Ok di) ∧
  ∃ config,
    ((Getenv "KUBERNETES_SERVICE_HOST" ≠ "" ∧
      Getenv "KUBERNETES_SERVICE_PORT" ≠ "" ∧
      InClusterConfig = Ok config) ∨
     (¬ (Getenv "KUBERNETES_SERVICE_HOST" ≠ "" ∧
         Getenv "KUBERNETES_SERVICE_PORT" ≠ "") ∧
      Getenv "CONFIGMASTER_HOST" ≠ "" ∧
      config = rest.mkConfig (Getenv "CONFIGMASTER_HOST"))) ∧
    NewForConfig config = None.
Proof.
  rewrite <- chooseDelay_returns. unfold startup. split.
  - intros (settings & line & Hrun).
    destruct (chooseDelay Getenv Atoi) as [delay|v]; [|done]. simpl in Hrun.
    destruct (chooseConfig Getenv InClusterConfig) as [config|v] eqn:Hcfg;
      [|done]. simpl in Hrun.
    destruct (NewForConfig config) eqn:Hnew; [done|].
    split; [by eexists|]. exists config. split; [|done].
    by apply chooseConfig_returns.
  - intros [[delay ->] (config & Hcfg & Hnew)].
    apply chooseConfig_returns in Hcfg. rewrite Hcfg. simpl.
    rewrite Hnew. by eexists _, _.
Qed.

(** X16.  Inside a cluster, that is when KUBERNETES_SERVICE_HOST and
    KUBERNETES_SERVICE_PORT are both set, CONFIGMASTER_HOST plays no
    part: two environments that differ in it alone start up alike. *)
Theorem in_cluster_ignores_the_explicit_host
    (Getenv Getenv' : string → string) (Atoi : string → Result Z)
    (InClusterConfig : Result rest.Config)
    (NewForConfig : rest.Config → option error) :
  Getenv "KUBERNETES_SERVICE_HOST" ≠ "" →
  Getenv "KUBERNETES_SERVICE_PORT" ≠ "" →
  (∀ name, name ≠ "CONFIGMASTER_HOST" → Getenv' name = Getenv name) →
  startup Getenv' Atoi InClusterConfig NewForConfig =
  startup Getenv Atoi InClusterConfig NewForConfig.
Proof.
  intros Hh Hp Hsame.
  unfold startup, chooseNamespace, chooseDelay, chooseConfig.
  rewrite !(Hsame "CONFIGMASTER_NAMESPACE"), !(Hsame "CONFIGMASTER_DELAY"),
    !(Hsame "KUBERNETES_SERVICE_HOST"), !(Hsame "KUBERNETES_SERVICE_PORT")
    by discriminate.
  by rewrite (bool_decide_eq_true_2 _ Hh), (bool_decide_eq_true_2 _ Hp).
Qed.

Lemma in_cluster_ignores_the_explicit_host_witness :
  startup
    (environment [("KUBERNETES_SERVICE_HOST", "10.0.0.1");
                  ("KUBERNETES_SERVICE_PORT", "443");
                  ("CONFIGMASTER_HOST", "127.0.0.1:8001")])
    atoiExample (Ok (rest.mkConfig "https://10.0.0.1:443")) (λ _, None)
  = Returned (Settings.mk "default" 5000000000 (rest.mkConfig "https://10.0.0.1:443"),
              Connecting "https://10.0.0.1:443" "default" 5000000000).
Proof.
  rewrite (in_cluster_ignores_the_explicit_host
             (environment [("KUBERNETES_SERVICE_HOST", "10.0.0.1");
                           ("KUBERNETES_SERVICE_PORT", "443")])
             (environment [("KUBERNETES_SERVICE_HOST", "10.0.0.1");
                           ("KUBERNETES_SERVICE_PORT", "443");
                           ("CONFIGMASTER_HOST", "127.0.0.1:8001")])).
  - vm_compute. reflexivity.
  - discriminate.
  - discriminate.
  - intros name Hname. unfold environment. simpl.
    rewrite !lookup_insert. repeat case_decide; done.
Defined.

(** X17.  The delay [main] ends up with is five seconds when
    CONFIGMASTER_DELAY is unset and the number read from it, times a
    second in 64-bit arithmetic, when it is set: the number of seconds
    asked for exactly when that number is between -9223372036 and
    9223372036; beyond, the product overflows.  A negative number of
    seconds is taken as it is. *)
Theorem delay_is_the_seconds_asked_for
    (Getenv : string → string) (Atoi : string → Result Z)
    (InClusterConfig : Result rest.Config)
    (NewForConfig : rest.Config → option error)
    (settings : Settings.t) (line : StartupLine) :
  startup Getenv Atoi InClusterConfig NewForConfig = Returned (settings, line) →
  (Getenv "CONFIGMASTER_DELAY" = "" →
     Settings.delay settings = 5 * Second) ∧
  (∀ di, Getenv "CONFIGMASTER_DELAY" ≠ "" →
     Atoi (Getenv "CONFIGMASTER_DELAY") = Ok di →
     - 2 ^ 63 ≤ di < 2 ^ 63 →
     Settings.delay settings = seconds di ∧
     (Settings.delay settings = di * Second ↔ -9223372036 ≤ di ≤ 9223372036)).
Proof.
  unfold startup, chooseDelay. intros Hrun. split.
  - intros Hd. rewrite Hd in Hrun. simpl in Hrun.
    destruct (chooseConfig Getenv InClusterConfig) as [config|v]; [|done].
    simpl in Hrun. destruct (NewForConfig config); [done|].
    by injection Hrun as <- _.
  - intros di Hd Hdi Hrange.
    rewrite bool_decide_eq_true_2, Hdi in Hrun by done. simpl in Hrun.
    destruct (chooseConfig Getenv InClusterConfig) as [config|v]; [|done].
    simpl in Hrun. destruct (NewForConfig config); [done|].
    injection Hrun as <- _. simpl. split; [done|]. by apply seconds_exact.
Qed.

Lemma delay_is_the_seconds_asked_for_witness :
  startup
    (environment [("CONFIGMASTER_DELAY", "-1");
                  ("CONFIGMASTER_HOST", "127.0.0.1:8001")])
    atoiExample (Err "not in a cluster") (λ _, None)
  = Returned (Settings.mk "default" (-1000000000) (rest.mkConfig "127.0.0.1:8001"),
              Connecting "127.0.0.1:8001" "default" (-1000000000)) ∧
  Settings.delay (Settings.mk "default" (-1000000000) (rest.mkConfig "127.0.0.1:8001"))
  = -1 * Second.
Proof.
  assert (startup
    (environment [("CONFIGMASTER_DELAY", "-1");
                  ("CONFIGMASTER_HOST", "127.0.0.1:8001")])
    atoiExample (Err "not in a cluster") (λ _, None)
  = Returned (Settings.mk "default" (-1000000000) (rest.mkConfig "127.0.0.1:8001"),
              Connecting "127.0.0.1:8001" "default" (-1000000000))) as Hrun.
  { vm_compute. reflexivity. }
  split; [exact Hrun|].
  destruct (delay_is_the_seconds_asked_for _ _ _ _ _ _ Hrun) as [_ Hset].
  destruct (Hset (-1)) as [_ Hexact].
  - vm_compute. discriminate.
  - reflexivity.
  - change (2 ^ 63) with 9223372036854775808. lia.
  - apply Hexact. lia.
Defined.

(** ** What every interleaving keeps *)

Section InterleavingFacts.
Context {K : Type} `{Countable K}.
Variables logReset logStart : K → LogLine.

Lemma Forall_captured_alter (S : K → Prop) (f : Timer K → Timer K) i
    (h : list (Timer K)) :
  (∀ tm, captured (f tm) = captured tm) →
  Forall (λ tm, S (captured tm)) h →
  Forall (λ tm, S (captured tm)) (alter f i h).
Proof.
  intros Hf Hall. apply Forall_lookup. intros j tm Hj.
  rewrite Forall_lookup in Hall.
  destruct (decide (i = j)) as [->|Hne].
  - rewrite list_lookup_alter_eq in Hj.
    destruct (h !! j) as [tm0|] eqn:Hj0; [|done].
    injection Hj as <-. rewrite Hf. by apply (Hall j).
  - rewrite list_lookup_alter_ne in Hj by done. by apply (Hall j).
Qed.

Lemma step_keysWithin (S : K → Prop) delay c (p : Process K) :
  (∀ k, c = Call k → S k) →
  keysWithin S p → keysWithin S (step logReset logStart delay c p).
Proof.
  intros Hcall (Hheap & Hgo & Hout).
  destruct c as [t|k|timer|g]; simpl.
  - by case_bool_decide.
  - split; [done|]. split; [|done].
    apply Forall_app. split; [done|]. constructor; [|done].
    by apply Hcall.
  - destruct (heap (timers p) !! timer) as [[k [w|]]|] eqn:Hi; try done.
    case_bool_decide; [|done]. split; [|split; [|done]]; simpl.
    + by apply Forall_captured_alter.
    + apply Forall_app. split; [done|]. constructor; [|done].
      rewrite Forall_lookup in Hheap. apply (Hheap _ _ Hi).
  - destruct (goroutines p !! g) as [[k|k found|k|]|] eqn:Hg; try done.
    + split; [done|]. split; [|done]. simpl.
      apply Forall_insert; [done|].
      rewrite Forall_lookup in Hgo. apply (Hgo _ _ Hg).
    + assert (S k) as Hk.
      { rewrite Forall_lookup in Hgo. apply (Hgo _ _ Hg). }
      split; [|split; [|done]]; simpl.
      * destruct found as [i|]; simpl.
        -- by apply Forall_captured_alter.
        -- apply Forall_app. split; [done|]. by constructor.
      * by apply Forall_insert.
    + assert (S k) as Hk.
      { rewrite Forall_lookup in Hgo. apply (Hgo _ _ Hg). }
      split; [done|]. split; simpl.
      * by apply Forall_insert.
      * apply Forall_app. split; [done|]. by constructor.
Qed.

Lemma schedule_keysWithin (S : K → Prop) delay cs (p : Process K) :
  (∀ k, Call k ∈ cs → S k) →
  keysWithin S p → keysWithin S (schedule logReset logStart delay cs p).
Proof.
  revert p. induction cs as [|c cs IH]; intros p Hcalls Hp; [done|].
  simpl. apply IH.
  - intros k Hk. apply Hcalls. by right.
  - apply step_keysWithin; [|done]. intros k ->. apply Hcalls. by left.
Qed.

Lemma schedule_invokes_called_keys delay cs w k :
  (w, k) ∈ invoked (schedule logReset logStart delay cs startProcess) →
  Call k ∈ cs.
Proof.
  intros Hin.
  destruct (schedule_keysWithin (λ k, Call k ∈ cs) delay cs startProcess)
    as (_ & _ & Hout).
  - done.
  - by repeat split.
  - rewrite Forall_forall in Hout. apply (Hout _ Hin).
Qed.

Lemma step_ownTimers delay c (p : Process K) :
  ownTimers p → ownTimers (step logReset logStart delay c p).
Proof.
  intros [Htab Hgo]. destruct c as [t|k|timer|g]; simpl.
  - by case_bool_decide.
  - split; [done|]. simpl. intros g k' i Hg.
    apply lookup_app_Some in Hg as [Hg|[_ Hg]]; [by eapply Hgo|].
    by apply list_lookup_singleton_Some in Hg as [_ ?].
  - destruct (heap (timers p) !! timer) as [[k [w|]]|] eqn:Hi; try done.
    case_bool_decide; [|done].
    assert (∀ k' i, (∃ w', heap (timers p) !! i = Some (mkTimer k' w')) →
                    ∃ w', expire timer (heap (timers p)) !! i
                          = Some (mkTimer k' w')) as Hkeep.
    { intros k' i [w' Hw']. unfold expire.
      destruct (decide (timer = i)) as [->|Hne].
      - rewrite list_lookup_alter_eq, Hw'. simpl. by eexists.
      - rewrite list_lookup_alter_ne by done. by eexists. }
    split; simpl.
    + intros k' i Hk'. by apply Hkeep, Htab.
    + intros g k' i Hg. apply Hkeep.
      apply lookup_app_Some in Hg as [Hg|[_ Hg]]; [by eapply Hgo|].
      by apply list_lookup_singleton_Some in Hg as [_ ?].
  - destruct (goroutines p !! g) as [[k|k found|k|]|] eqn:Hg; try done.
    + split; [done|]. simpl. intros g' k' i Hg'.
      apply list_lookup_insert_Some in Hg' as [(-> & [= <- Hfound] & _)|[_ Hg']].
      * apply Htab. exact Hfound.
      * by eapply Hgo.
    + assert (∀ k' i, (∃ w', heap (timers p) !! i = Some (mkTimer k' w')) →
                      ∃ w', heap (resetOrStart logReset logStart (clock p) delay
                                    k found (timers p)) !! i
                            = Some (mkTimer k' w')) as Hkeep.
      { intros k' i [w' Hw']. destruct found as [j|]; simpl.
        - unfold Reset. destruct (decide (j = i)) as [->|Hne].
          + rewrite list_lookup_alter_eq, Hw'. simpl. by eexists.
          + rewrite list_lookup_alter_ne by done. by eexists.
        - exists w'. by apply lookup_app_l_Some. }
      split; simpl.
      * intros k' i Hk'. destruct found as [j|]; simpl in *.
        -- by apply (Hkeep k' i), Htab.
        -- destruct (decide (k' = k)) as [->|Hne].
           ++ rewrite lookup_insert_eq in Hk'. injection Hk' as <-.
              exists (Some (expiry (clock p) delay)).
              rewrite lookup_app_r by lia. by rewrite Nat.sub_diag.
           ++ rewrite lookup_insert_ne in Hk' by done.
              destruct (Htab _ _ Hk') as [w' Hw']. exists w'.
              by apply lookup_app_l_Some.
      * intros g' k' i Hg'. apply Hkeep.
        apply list_lookup_insert_Some in Hg' as [(_ & [=] & _)|[_ Hg']].
        by eapply Hgo.
    + split; simpl.
      * intros k' i Hk'. destruct (decide (k' = k)) as [->|Hne].
        -- by rewrite lookup_delete_eq in Hk'.
        -- rewrite lookup_delete_ne in Hk' by done. by apply Htab.
      * intros g' k' i Hg'.
        apply list_lookup_insert_Some in Hg' as [(_ & [=] & _)|[_ Hg']].
        by eapply Hgo.
Qed.

Lemma schedule_ownTimers delay cs (p : Process K) :
  ownTimers p → ownTimers (schedule logReset logStart delay cs p).
Proof.
  revert p. induction cs as [|c cs IH]; intros p Hp; [done|].
  simpl. by apply IH, step_ownTimers.
Qed.

Lemma ownTimers_start : ownTimers (startProcess (K:=K)).
Proof. split; [intros k i|intros g k i]; done. Qed.
End InterleavingFacts.

(** X18.  However the goroutines interleave, the next stage is invoked
    only for keys that a call of the debouncer was made with: no race
    makes [findAndQueueDeployments] run for a descriptor that was never
    notified, nor [patchDeployment] for a workload that was never
    queued. *)
Theorem races_invent_no_invocation (delay : Z) :
  (∀ (cs : list (Choice ChangeType.t)) w change,
     (w, change) ∈
       invoked (schedule sawChangeResetting sawChangeStarting delay cs
                  startProcess) →
     Call change ∈ cs) ∧
  (∀ (cs : list (Choice Deployment.t)) w dep,
     (w, dep) ∈
       invoked (schedule resettingQueuedUpdate queuingUpdate delay cs
                  startProcess) →
     Call dep ∈ cs).
Proof. split; intros cs w k; apply schedule_invokes_called_keys. Qed.

(** X19.  However the goroutines interleave, a map entry always points
    at a timer that was made for the key of the entry, so that a
    [Reset] reached through the map never re-arms the countdown of
    another key. *)
Theorem races_keep_entries_on_their_own_timers (delay : Z) :
  (∀ (cs : list (Choice ChangeType.t)) change timer,
     let p := schedule sawChangeResetting sawChangeStarting delay cs
                startProcess in
     table (timers p) !! change = Some timer →
     ∃ w, heap (timers p) !! timer = Some (mkTimer change w)) ∧
  (∀ (cs : list (Choice Deployment.t)) dep timer,
     let p := schedule resettingQueuedUpdate queuingUpdate delay cs
                startProcess in
     table (timers p) !! dep = Some timer →
     ∃ w, heap (timers p) !! timer = Some (mkTimer dep w)).
Proof.
  split; intros cs k timer p;
    apply (schedule_ownTimers _ _ delay cs startProcess ownTimers_start).
Qed.
